(** * 2048: the game-state engine of [2048_game.py]

    A shallow embedding of the board engine (module-level functions of
    [2048_game.py]) and of the state-changing part of the [Game2048] class,
    followed by the properties the specification states about them.

    Conventions.
    - A tile is a Python [int]: an unbounded integer, here [Z].
    - A board is a [list (list Z)], rows first, as in the source.
    - [IndexError] is the only exception the engine can raise; a function
      that can raise it returns [option], [None] standing for the raise.
    - The hidden global generator of [random] and the answer of the user to
      a [messagebox.askyesno] dialog are inputs; they are made explicit. *)

From stdpp Require Import base tactics numbers option list strings gmap pretty.

Abbreviation Row := (list Z).
Abbreviation Board := (list (list Z)).

(** ** Board construction *)

(** [create_board]: [[[0 for _ in range(size)] for _ in range(size)]].
    [range] of a negative number is empty, which [Z.to_nat] reproduces. *)
Definition create_board (size : Z) : Board :=
  replicate (Z.to_nat size) (replicate (Z.to_nat size) 0%Z).

(** ** Compressing one line *)

(** The [while] loop of [compress] (lines 49-55), one iteration per unit of
    fuel.  The state is the list being edited in place, the index [i] and the
    score so far; [created] is a ghost log of the values the merges write,
    which the source does not keep.  [None] is an [IndexError] or the end of
    the fuel.  The two cells are read before they are written and popped,
    so the update and the [pop], silent here out of range, are in range. *)
Fixpoint merge_loop (fuel : nat) (new_row : Row) (i : nat) (score : Z)
    (created : list Z) : option (Row * Z * list Z) :=
  match fuel with
  | O => None
  | S fuel' =>
    if bool_decide (Z.of_nat i < Z.of_nat (length new_row) - 1)%Z then
      a ← new_row !! i;
      b ← new_row !! (i + 1);
      if bool_decide (a = b) then
        (* new_row[i] *= 2 ; score += new_row[i] ; new_row.pop(i + 1) *)
        let doubled := <[i := (a * 2)%Z]> new_row in
        v ← doubled !! i;
        merge_loop fuel' (delete (i + 1) doubled) (i + 1) (score + v)%Z
          (created ++ [v])
      else
        merge_loop fuel' new_row (i + 1) score created
    else Some (new_row, score, created)
  end.

(** [compress] with its loop run literally; the loop body runs at most once
    per element of the compacted row, so this much fuel is enough
    (see [compress_while_compress]). *)
Definition compress_while (row : Row) : option (Row * Z) :=
  let new_row := filter (λ num, num ≠ 0%Z) row in
  '(merged, score, _) ← merge_loop (S (length new_row)) new_row 0 0%Z [];
  Some (merged ++ replicate (length row - length merged) 0%Z, score).

(** The ghost log of that run: the merged values it creates, in order. *)
Definition compress_created (row : Row) : option (list Z) :=
  let new_row := filter (λ num, num ≠ 0%Z) row in
  '(_, _, created) ← merge_loop (S (length new_row)) new_row 0 0%Z [];
  Some created.

(** The same pass by recursion on the part of the list right of [i]: the
    elements left of [i] are final, the one at [i] is either doubled and its
    right neighbour dropped, or kept. *)
Fixpoint merge_row (l : Row) : Row :=
  match l with
  | a :: (b :: rest) as tl =>
      if bool_decide (a = b) then (a * 2)%Z :: merge_row rest
      else a :: merge_row tl
  | _ => l
  end.

(** The score the pass accumulates ([score += new_row[i]] after doubling). *)
Fixpoint merge_gain (l : Row) : Z :=
  match l with
  | a :: (b :: rest) as tl =>
      if bool_decide (a = b) then (a * 2 + merge_gain rest)%Z
      else merge_gain tl
  | _ => 0%Z
  end.

(** The values the merges of the pass create, left to right. *)
Fixpoint merge_created (l : Row) : list Z :=
  match l with
  | a :: (b :: rest) as tl =>
      if bool_decide (a = b) then (a * 2)%Z :: merge_created rest
      else merge_created tl
  | _ => []
  end.

(** [compress(row)]: compaction, one merge pass, padding with zeros.
    [[0] * k] is empty for a negative [k], as is [replicate] of the
    truncated difference. *)
Definition compress (row : Row) : Row * Z :=
  let new_row := filter (λ num, num ≠ 0%Z) row in
  let merged := merge_row new_row in
  (merged ++ replicate (length row - length merged) 0%Z, merge_gain new_row).

Definition sum_row (l : Row) : Z := foldr Z.add 0%Z l.

(** ** Empty cells and spawning *)

(** [board[i][j]]; [None] is the [IndexError] of an index out of range
    (all indices in this program come from [range], so none is negative). *)
Definition cell (board : Board) (i j : nat) : option Z :=
  row ← board !! i; row !! j.

(** [get_empty_cells]: the comprehension scans [i] over [range(len(board))]
    and, for each [i], [j] over [range(len(board[0]))]; it reads
    [board[i][j]] and so raises on a row shorter than the first one. *)
Definition get_empty_cells (board : Board) : option (list (nat * nat)) :=
  (λ parts, concat parts) <$> mapM (λ i,
    row0 ← board !! 0;
    (λ parts, concat parts) <$> mapM (λ j,
      v ← cell board i j;
      Some (if bool_decide (v = 0%Z) then [(i, j)] else []))
      (seq 0 (length row0)))
    (seq 0 (length board)).

(** The global generator of [random] as an input: a tape of the indices
    [random.choice] draws and a tape of the outcomes of
    [random.random() < 0.9], each with the count of draws made so far. *)
Record Random := mkRandom {
  picks : nat → nat;
  coins : nat → bool;
  n_picks : nat;
  n_coins : nat
}.

(** [random.choice(seq)]: an index below [len(seq)]; [IndexError] on an
    empty sequence. *)
Definition random_choice {A} (seq : list A) (g : Random) : option (A * Random) :=
  x ← seq !! (picks g (n_picks g) mod length seq);
  Some (x, mkRandom (picks g) (coins g) (S (n_picks g)) (n_coins g)).

(** [random.random() < 0.9] *)
Definition random_lt_09 (g : Random) : bool * Random :=
  (coins g (n_coins g), mkRandom (picks g) (coins g) (n_picks g) (S (n_coins g))).

(** [new_board[i][j] = v]; raises when [i] or [j] is out of range. *)
Definition set_cell (board : Board) (i j : nat) (v : Z) : option Board :=
  row ← board !! i;
  if bool_decide (j < length row) then Some (<[i := <[j := v]> row]> board)
  else None.

(** [add_random_tile] on the grid a board denotes.  This is the function
    for a board whose rows are distinct list objects, as is every board this
    program builds ([create_board], [compress], [transpose] and
    [reverse_rows] build each row afresh): the deep copy and the write then
    act on the grid alone.  [add_random_tile_obj] below is the function on
    boards whose positions may share a row object, and
    [add_random_tile_obj_distinct] relates the two. *)
Definition add_random_tile (board : Board) (g : Random) : option (Board * Random) :=
  let new_board := board in
  empty_cells ← get_empty_cells new_board;
  match empty_cells with
  | [] => Some (new_board, g)
  | _ :: _ =>
      '((i, j), g1) ← random_choice empty_cells g;
      let '(lt, g2) := random_lt_09 g1 in
      new_board' ← set_cell new_board i j (if lt then 2%Z else 4%Z);
      Some (new_board', g2)
  end.

(** A board as the list objects Python holds: the row objects, and for
    each position of the board the object it refers to.  Two positions may
    refer to one object ([r = [0, 0]; board = [r, r]]). *)
Record ObjBoard := mkObjBoard {
  row_objects : list Row;
  row_refs : list nat
}.

(** The grid an object board denotes; [None] only for a reference to no
    object, which Python does not have. *)
Definition board_of (b : ObjBoard) : option Board :=
  mapM (λ r, row_objects b !! r) (row_refs b).

(** [copy.deepcopy] of a list of lists of [int]: its memo makes one new row
    object per row object, so positions that shared a row share its copy;
    the integers are not copied.  The copy has the shape of the original
    and objects of its own: writing to it leaves the original as it is. *)
Definition deepcopy (b : ObjBoard) : ObjBoard :=
  mkObjBoard (row_objects b) (row_refs b).

(** [new_board[i][j] = v] on objects: the row object at position [i] is
    written, and with it every position that refers to that object. *)
Definition set_cell_obj (b : ObjBoard) (i j : nat) (v : Z) : option ObjBoard :=
  r ← row_refs b !! i;
  row ← row_objects b !! r;
  if bool_decide (j < length row) then
    Some (mkObjBoard (<[r := <[j := v]> row]> (row_objects b)) (row_refs b))
  else None.

(** [add_random_tile] on a board given as objects. *)
Definition add_random_tile_obj (board : ObjBoard) (g : Random)
  : option (ObjBoard * Random) :=
  let new_board := deepcopy board in
  grid ← board_of new_board;
  empty_cells ← get_empty_cells grid;
  match empty_cells with
  | [] => Some (new_board, g)
  | _ :: _ =>
      '((i, j), g1) ← random_choice empty_cells g;
      let '(lt, g2) := random_lt_09 g1 in
      new_board' ← set_cell_obj new_board i j (if lt then 2%Z else 4%Z);
      Some (new_board', g2)
  end.

Definition initialize_game (size : Z) (g : Random) : option (Board * Random) :=
  let board := create_board size in
  '(board, g) ← add_random_tile board g;
  '(board, g) ← add_random_tile board g;
  Some (board, g).

(** ** The four moves *)

(** [move_left]: the [for] loop appends one compressed row per row and
    adds up the scores. *)
Definition move_left (board : Board) : Board * Z :=
  foldl (λ '(new_board, total_score) row,
           let '(new_row, score) := compress row in
           (new_board ++ [new_row], (total_score + score)%Z))
        ([], 0%Z) board.

(** [zip] of the unpacked rows: the columns, as many as the shortest row
    has cells; no row gives no column. *)
Fixpoint zip_star (rows : Board) : Board :=
  match rows with
  | [] => []
  | r :: rest =>
      match rest with
      | [] => (λ x, [x]) <$> r
      | _ :: _ => zip_with cons r (zip_star rest)
      end
  end.

(** [transpose]: each tuple of that [zip] as a list. *)
Definition transpose (board : Board) : Board := zip_star board.

(** [[row[::-1] for row in board]] *)
Definition reverse_rows (board : Board) : Board := reverse <$> board.

Definition move_right (board : Board) : Board * Z :=
  let board := reverse_rows board in
  let '(board, score) := move_left board in
  let board := reverse_rows board in
  (board, score).

Definition move_up (board : Board) : Board * Z :=
  let board := transpose board in
  let '(board, score) := move_left board in
  let board := transpose board in
  (board, score).

Definition move_down (board : Board) : Board * Z :=
  let board := transpose board in
  let '(board, score) := move_right board in
  let board := transpose board in
  (board, score).

Definition boards_equal (board1 board2 : Board) : bool :=
  bool_decide (board1 = board2).

(** ** Terminal checks *)

(** A [for] loop whose body may [return True]: the first [Some true] ends
    it, a raise ends it, and falling through gives [Some false]. *)
Fixpoint for_return_true {X} (body : X → option bool) (xs : list X) : option bool :=
  match xs with
  | [] => Some false
  | x :: xs' =>
      match body x with
      | None => None
      | Some true => Some true
      | Some false => for_return_true body xs'
      end
  end.

(** [can_move]; [len(row) - 1] and [len(board) - 1] are [-1] on an empty
    list, whose [range] is as empty as that of the truncated difference. *)
Definition can_move (board : Board) : option bool :=
  empty_cells ← get_empty_cells board;
  match empty_cells with
  | _ :: _ => Some true
  | [] =>
      horizontal ← for_return_true (λ row : Row,
        for_return_true (λ i : nat,
          a ← row !! i; b ← row !! (i + 1); Some (bool_decide (a = b)))
          (seq 0 (length row - 1))) board;
      if (horizontal : bool) then Some true
      else
        row0 ← board !! 0;
        for_return_true (λ col : nat,
          for_return_true (λ row : nat,
            a ← cell board row col; b ← cell board (row + 1) col;
            Some (bool_decide (a = b)))
            (seq 0 (length board - 1)))
          (seq 0 (length row0))
  end.

(** [any(target in row for row in board)] *)
Definition has_won (board : Board) (target : Z) : bool :=
  existsb (λ row : Row, existsb (λ v, bool_decide (v = target)) row) board.

Definition game_over (board : Board) : option bool :=
  negb <$> can_move board.

(** ** The game session: the state of [Game2048] and its two mutators *)

(** The keys [handle_keypress] binds select one of the four movers. *)
Inductive Direction := Up | Down | Left | Right.

Definition move_functions (d : Direction) : Board → Board * Z :=
  match d with
  | Up => move_up
  | Down => move_down
  | Left => move_left
  | Right => move_right
  end.

(** What the session shows to the player besides the board: the two
    dialogs of [make_move], and the fact that [restart_game] ran. *)
Inductive Event := YouWin | GameOver | Restarted.

#[global] Instance Event_eq_dec : EqDecision Event.
Proof. solve_decision. Defined.

Module Game2048.

(** The fields [make_move] and [restart_game] read and write, and the
    generator they draw from.  The widgets are not part of the state. *)
Record t := mk {
  size : Z;
  board : Board;
  score : Z;
  game_won : bool;
  random : Random
}.

(** [restart_game] *)
Definition restart_game (self : t) : option t :=
  '(new_board, g) ← initialize_game (size self) (random self);
  Some (mk (size self) new_board 0%Z false g).

(** [make_move].  [response] is the answer the player gives to the dialog
    this call opens, if it opens one.  The result is the new state and
    what was shown, in order.  The call of [update_ui] after the spawn is
    left out: it writes the widgets only, and it raises nothing when the
    board is a square of the size of the session ([session_ok] below); the
    facts on accepted moves are stated for such sessions. *)
Definition make_move (move_function : Board → Board * Z) (response : bool)
    (self : t) : option (t * list Event) :=
  let old_board := board self in
  let '(new_board, score_gained) := move_function (board self) in
  if negb (boards_equal old_board new_board) then
    '(spawned, g) ← add_random_tile new_board (random self);
    let self1 := mk (size self) spawned (score self + score_gained)%Z
                    (game_won self) g in
    if negb (game_won self1) && has_won (board self1) 2048%Z then
      let self2 := mk (size self1) (board self1) (score self1) true
                      (random self1) in
      if negb response then
        self3 ← restart_game self2; Some (self3, [YouWin; Restarted])
      else Some (self2, [YouWin])
    else
      over ← game_over (board self1);
      if (over : bool) then
        if response then
          self3 ← restart_game self1; Some (self3, [GameOver; Restarted])
        else Some (self1, [GameOver])
      else Some (self1, [])
  else Some (self, []).

(** What the player does: a bound key, with the answer to a dialog that
    may follow, or the "New Game" button. *)
Inductive Action := KeyPress (d : Direction) (response : bool) | NewGame.

Definition step (a : Action) (self : t) : option (t * list Event) :=
  match a with
  | KeyPress d response => make_move (move_functions d) response self
  | NewGame => self' ← restart_game self; Some (self', [Restarted])
  end.

(** A run of the event loop over a list of actions. *)
Fixpoint run (actions : list Action) (self : t) : option (t * list Event) :=
  match actions with
  | [] => Some (self, [])
  | a :: rest =>
      '(self1, shown1) ← step a self;
      '(self2, shown2) ← run rest self1;
      Some (self2, shown1 ++ shown2)
  end.

(** Reading a list of events with the win flag [flag] in force: [None] if
    a [YouWin] is shown while the flag is set, else the flag at the end.
    [Restarted] starts a new game, with the flag cleared. *)
Fixpoint one_win_per_game (flag : bool) (shown : list Event) : option bool :=
  match shown with
  | [] => Some flag
  | YouWin :: rest => if flag then None else one_win_per_game true rest
  | Restarted :: rest => one_win_per_game false rest
  | GameOver :: rest => one_win_per_game flag rest
  end.

End Game2048.

(** ** Vocabulary of the statements *)

(** A board of [n] rows of [m] cells each; the boards of the game are the
    square ones. *)
Definition is_rect (n m : nat) (board : Board) : Prop :=
  length board = n ∧ Forall (λ row : Row, length row = m) board.

Definition is_square (n : nat) (board : Board) : Prop := is_rect n n board.

(** The sum of all tiles of a board. *)
Definition board_sum (board : Board) : Z := foldr (λ row acc, (sum_row row + acc)%Z) 0%Z board.

(** Two neighbours of a line are equal. *)
Fixpoint adjacent_equalb (l : Row) : bool :=
  match l with
  | a :: (b :: _) as tl => bool_decide (a = b) || adjacent_equalb tl
  | _ => false
  end.

(** The cheap check as the specification words it: some cell is empty, or
    two cells next to each other in a row are equal, or two cells next to
    each other in a column are equal. *)
Definition cheap_check (board : Board) : Prop :=
  (∃ i j, cell board i j = Some 0%Z)
  ∨ (∃ i j v, cell board i j = Some v ∧ cell board i (j + 1) = Some v)
  ∨ (∃ i j v, cell board i j = Some v ∧ cell board (i + 1) j = Some v).

(** Some direction would change the board. *)
Definition some_move_changes (board : Board) : Prop :=
  (move_up board).1 ≠ board ∨ (move_down board).1 ≠ board
  ∨ (move_left board).1 ≠ board ∨ (move_right board).1 ≠ board.

(** How a call ends: with a value, or with the error the specification
    names for a rejected size. *)
Inductive Outcome (A : Type) := Returned (a : A) | InvalidSizeError.
Arguments Returned {A} a.
Arguments InvalidSizeError {A}.

(** [createEmptyBoard] as the specification words it: an all-zero grid of
    [size] rows and columns, and a failure for a size below 2. *)
Definition createEmptyBoard_spec (size : Z) : Outcome Board :=
  if bool_decide (size < 2)%Z then InvalidSizeError
  else Returned (replicate (Z.to_nat size) (replicate (Z.to_nat size) 0%Z)).

(** [create_board] has no [raise] and calls nothing that raises on an
    [int]: every call returns. *)
Definition create_board_outcome (size : Z) : Outcome Board :=
  Returned (create_board size).


(** The session owns a square board of its size. *)
Definition session_ok (self : Game2048.t) : Prop :=
  is_square (Z.to_nat (Game2048.size self)) (Game2048.board self).

(** ** Vocabulary of the further properties *)

(** The coordinates of a grid of [n] rows and [m] columns, row by row. *)
Definition row_major (n m : nat) : list (nat * nat) :=
  concat ((λ i, (λ j, (i, j)) <$> seq 0 m) <$> seq 0 n).

(** A cell as the game makes them: empty, or a power of two from 2 on. *)
Definition is_tile (v : Z) : Prop :=
  v = 0%Z ∨ ∃ k : nat, v = (2 ^ Z.of_nat (S k))%Z.

Definition tiles_ok (board : Board) : Prop := Forall (Forall is_tile) board.

Definition no_negative (board : Board) : Prop :=
  Forall (Forall (λ v, 0 ≤ v)%Z) board.

(** The number of tiles (non-zero cells) of a board. *)
Definition count_tiles (board : Board) : Z :=
  board_sum ((λ row : Row,
                (λ v : Z, if bool_decide (v = 0%Z) then 0%Z else 1%Z) <$> row)
             <$> board).

(** [Game2048.__init__], as far as the state goes: a fresh board, no score,
    the win flag clear.  (It also builds the widgets and binds the keys.) *)
Definition Game2048_init (size : Z) (g : Random) : option Game2048.t :=
  '(board, g') ← initialize_game size g;
  Some (Game2048.mk size board 0%Z false g').

(** ** Keys and labels *)

(** The dictionary of [handle_keypress]: the key names it binds, each to
    its mover. *)
Definition move_functions_dict : gmap string (Board → Board * Z) :=
  list_to_map
    [("up", move_up); ("w", move_up); ("down", move_down); ("s", move_down);
     ("left", move_left); ("a", move_left);
     ("right", move_right); ("d", move_right)]%string.

(** [handle_keypress], from its second line on: [key] is the lowered name
    of the key, [event.keysym.lower()].  A key the dictionary does not hold
    does nothing. *)
Definition handle_keypress (key : string) (response : bool)
    (self : Game2048.t) : option (Game2048.t * list Event) :=
  match move_functions_dict !! key with
  | Some move_function => Game2048.make_move move_function response self
  | None => Some (self, [])
  end.

(** What [config] sets on the label of a cell. *)
Record Label := mkLabel { text : string; bg : string; fg : string }.

Definition COLORS : gmap Z string :=
  list_to_map
    [(0, "#CDC1B4"); (2, "#EEE4DA"); (4, "#EDE0C8"); (8, "#F2B179");
     (16, "#F59563"); (32, "#F67C5F"); (64, "#F65E3B"); (128, "#EDCF72");
     (256, "#EDCC61"); (512, "#EDC850"); (1024, "#EDC53F"); (2048, "#EDC22E");
     (4096, "#3C3A32"); (8192, "#3C3A32")]%Z%string.

Definition TEXT_COLORS : gmap Z string :=
  list_to_map
    [(0, "#CDC1B4"); (2, "#776E65"); (4, "#776E65"); (8, "#F9F6F2");
     (16, "#F9F6F2")]%Z%string.

(** The grid of labels [setup_ui] builds (lines 243-274): one blank label
    per cell of a [size] by [size] grid. *)
Definition setup_cells (size : Z) : list (list Label) :=
  replicate (Z.to_nat size)
    (replicate (Z.to_nat size) (mkLabel "" "#CDC1B4" "#CDC1B4")).

(** A [for] loop over [xs] that updates a state and may raise. *)
Fixpoint for_each {S X} (body : X → S → option S) (xs : list X) (s : S)
  : option S :=
  match xs with
  | [] => Some s
  | x :: xs' => s' ← body x s; for_each body xs' s'
  end.

(** [self.cells[i][j].config(...)]: [IndexError] outside the grid. *)
Definition config (cells : list (list Label)) (i j : nat) (l : Label)
  : option (list (list Label)) :=
  row ← cells !! i;
  _ ← row !! j;
  Some (<[i := <[j := l]> row]> cells).

(** The text and colours [update_ui] gives the label of a cell holding
    [value]; [COLORS[0]] is a subscript and could raise [KeyError], the
    two [get] have defaults.  [str] of an integer is its decimal numeral,
    stdpp's [pretty]. *)
Definition label_of (value : Z) : option Label :=
  if bool_decide (value = 0%Z) then
    c ← COLORS !! 0%Z; Some (mkLabel "" c c)
  else
    Some (mkLabel (pretty value)
            (default "#3C3A32"%string (COLORS !! value))
            (default "#F9F6F2"%string (TEXT_COLORS !! value))).

(** [update_ui]: every label of the grid is configured from its cell, then
    the score label gets the score.  The state is the grid of labels and
    the text of the score label. *)
Definition update_ui (self : Game2048.t) (cells : list (list Label))
  : option (list (list Label) * string) :=
  cells' ← for_each (λ i : nat,
      for_each (λ (j : nat) (cells : list (list Label)),
        value ← cell (Game2048.board self) i j;
        l ← label_of value;
        config cells i j l)
        (seq 0 (Z.to_nat (Game2048.size self))))
    (seq 0 (Z.to_nat (Game2048.size self))) cells;
  Some (cells', pretty (Game2048.score self)).

(** A grid of labels of [n] rows of [m] labels, and the label at a place. *)
Definition is_grid (n m : nat) (cells : list (list Label)) : Prop :=
  length cells = n ∧ Forall (λ row : list Label, length row = m) cells.

Definition label_at (cells : list (list Label)) (i j : nat) : option Label :=
  row ← cells !! i; row !! j.

(** * Properties *)

(** ** Facts on the merge pass *)

Lemma merge_loop_spec (fuel : nat) :
  ∀ (rest pre : Row) (score : Z) (created : list Z),
    length rest < fuel →
    merge_loop fuel (pre ++ rest) (length pre) score created
    = Some (pre ++ merge_row rest, (score + merge_gain rest)%Z,
            created ++ merge_created rest).
Proof.
  induction fuel as [|fuel IH]; intros rest pre score created Hfuel; [lia|].
  destruct rest as [|a [|b rest]];
    cbn [merge_loop merge_row merge_gain merge_created].
  - rewrite bool_decide_eq_false_2; [|rewrite length_app; simpl; lia].
    by rewrite Z.add_0_r, !app_nil_r.
  - rewrite bool_decide_eq_false_2; [|rewrite length_app; simpl; lia].
    by rewrite Z.add_0_r, !app_nil_r.
  - rewrite bool_decide_eq_true_2; [|rewrite length_app; simpl; lia].
    rewrite (list_lookup_middle pre (b :: rest) a (length pre)) by done.
    replace (pre ++ a :: b :: rest) with ((pre ++ [a]) ++ b :: rest)
      by (by rewrite <- app_assoc).
    rewrite (list_lookup_middle (pre ++ [a]) rest b (length pre + 1))
      by (rewrite length_app; simpl; lia).
    cbn [mbind option_bind].
    case_bool_decide as Hab.
    + subst b.
      rewrite <- app_assoc. cbn [app].
      rewrite insert_app_r_alt by lia.
      rewrite Nat.sub_diag. cbn [list_insert insert].
      rewrite (list_lookup_middle pre (a :: rest) (a * 2)%Z (length pre)) by done.
      cbn [mbind option_bind].
      replace (delete (length pre + 1) (pre ++ (a * 2)%Z :: a :: rest))
        with ((pre ++ [(a * 2)%Z]) ++ rest).
      2:{ replace (length pre + 1) with (length (pre ++ [(a * 2)%Z]))
            by (rewrite length_app; simpl; lia).
          replace (pre ++ (a * 2)%Z :: a :: rest)
            with ((pre ++ [(a * 2)%Z]) ++ a :: rest)
            by (by rewrite <- app_assoc).
          by rewrite delete_middle. }
      replace (length pre + 1) with (length (pre ++ [(a * 2)%Z]))
        by (rewrite length_app; simpl; lia).
      rewrite IH by (simpl in Hfuel; lia).
      rewrite <- !app_assoc. cbn [app]. do 2 f_equal. f_equal. lia.
    + replace (length pre + 1) with (length (pre ++ [a]))
        by (rewrite length_app; simpl; lia).
      rewrite IH by (simpl in Hfuel; simpl; lia).
      by rewrite <- app_assoc.
Qed.

(** The literal loop terminates and agrees with the recursive pass. *)
Lemma compress_while_compress (row : Row) :
  compress_while row = Some (compress row).
Proof.
  unfold compress_while, compress.
  pose proof (merge_loop_spec (S (length (filter (λ num, num ≠ 0%Z) row)))
                (filter (λ num, num ≠ 0%Z) row) [] 0%Z []) as Hloop.
  cbn [app length] in Hloop. rewrite Hloop by lia.
  by rewrite Z.add_0_l.
Qed.

(** Its ghost log is the list of created values of the recursive pass. *)
Lemma compress_created_spec (row : Row) :
  compress_created row
  = Some (merge_created (filter (λ num, num ≠ 0%Z) row)).
Proof.
  unfold compress_created.
  pose proof (merge_loop_spec (S (length (filter (λ num, num ≠ 0%Z) row)))
                (filter (λ num, num ≠ 0%Z) row) [] 0%Z []) as Hloop.
  cbn [app length] in Hloop. by rewrite Hloop by lia.
Qed.

(** Induction following the cases of the merge pass. *)
Lemma merge_ind (P : Row → Prop) :
  P [] →
  (∀ a, P [a]) →
  (∀ a rest, P rest → P (a :: a :: rest)) →
  (∀ a b rest, a ≠ b → P (b :: rest) → P (a :: b :: rest)) →
  ∀ l, P l.
Proof.
  intros Hnil Hone Heq Hne l.
  assert (Hboth : P l ∧ ∀ a, P (a :: l)); [|by destruct Hboth].
  induction l as [|b l [IHl IHcons]]; [by split|].
  split; [apply IHcons|].
  intros a. destruct (decide (a = b)) as [->|Hab].
  - by apply Heq.
  - by apply Hne.
Qed.

Lemma merge_row_eq (a : Z) (rest : Row) :
  merge_row (a :: a :: rest) = (a * 2)%Z :: merge_row rest.
Proof. cbn [merge_row]. by rewrite bool_decide_eq_true_2. Qed.

Lemma merge_row_ne (a b : Z) (rest : Row) :
  a ≠ b → merge_row (a :: b :: rest) = a :: merge_row (b :: rest).
Proof. intros. cbn [merge_row]. by rewrite bool_decide_eq_false_2. Qed.

Lemma merge_gain_eq (a : Z) (rest : Row) :
  merge_gain (a :: a :: rest) = (a * 2 + merge_gain rest)%Z.
Proof. cbn [merge_gain]. by rewrite bool_decide_eq_true_2. Qed.

Lemma merge_gain_ne (a b : Z) (rest : Row) :
  a ≠ b → merge_gain (a :: b :: rest) = merge_gain (b :: rest).
Proof. intros. cbn [merge_gain]. by rewrite bool_decide_eq_false_2. Qed.

Lemma merge_created_eq (a : Z) (rest : Row) :
  merge_created (a :: a :: rest) = (a * 2)%Z :: merge_created rest.
Proof. cbn [merge_created]. by rewrite bool_decide_eq_true_2. Qed.

Lemma merge_created_ne (a b : Z) (rest : Row) :
  a ≠ b → merge_created (a :: b :: rest) = merge_created (b :: rest).
Proof. intros. cbn [merge_created]. by rewrite bool_decide_eq_false_2. Qed.

Lemma adjacent_equalb_eq (a : Z) (rest : Row) :
  adjacent_equalb (a :: a :: rest) = true.
Proof. cbn [adjacent_equalb]. by rewrite bool_decide_eq_true_2. Qed.

Lemma adjacent_equalb_ne (a b : Z) (rest : Row) :
  a ≠ b → adjacent_equalb (a :: b :: rest) = adjacent_equalb (b :: rest).
Proof. intros. cbn [adjacent_equalb]. by rewrite bool_decide_eq_false_2. Qed.

Ltac merge_cases l :=
  induction l as [|?a|?a ?rest ?IH|?a ?b ?rest ?Hne ?IH] using merge_ind;
  rewrite ?merge_row_eq, ?merge_gain_eq, ?merge_created_eq, ?adjacent_equalb_eq,
    ?merge_row_ne, ?merge_gain_ne, ?merge_created_ne, ?adjacent_equalb_ne by done.

(** Each merge removes one tile and creates one value. *)
Lemma merge_row_created_length (l : Row) :
  length (merge_row l) + length (merge_created l) = length l.
Proof. merge_cases l; simpl in *; lia. Qed.

Lemma merge_row_length_le (l : Row) : length (merge_row l) ≤ length l.
Proof. pose proof (merge_row_created_length l). lia. Qed.

Lemma merge_row_nonzero (l : Row) :
  Forall (λ v, v ≠ 0%Z) l → Forall (λ v, v ≠ 0%Z) (merge_row l).
Proof.
  merge_cases l; intros Hnz; try done.
  - inversion_clear Hnz as [|? ? Ha Hrest]. inversion_clear Hrest.
    constructor; [lia|auto].
  - inversion_clear Hnz. constructor; auto.
Qed.

Lemma merge_row_sum (l : Row) : sum_row (merge_row l) = sum_row l.
Proof. merge_cases l; simpl in *; lia. Qed.

Lemma merge_gain_created (l : Row) : merge_gain l = sum_row (merge_created l).
Proof. merge_cases l; simpl in *; lia. Qed.

Lemma merge_gain_nonneg (l : Row) :
  Forall (λ v, 0 ≤ v)%Z l → (0 ≤ merge_gain l)%Z.
Proof.
  merge_cases l; intros Hpos; try done.
  - inversion_clear Hpos as [|? ? Ha Hrest]. inversion_clear Hrest.
    specialize (IH ltac:(done)). lia.
  - inversion_clear Hpos. auto.
Qed.

(** Every created value is the double of two equal neighbours at the time
    of the merge, both tiles of the line. *)
Lemma merge_created_double (l : Row) (w : Z) :
  w ∈ merge_created l → ∃ v, v ∈ l ∧ w = (v + v)%Z.
Proof.
  merge_cases l; intros Hw.
  - by apply elem_of_nil in Hw.
  - by apply elem_of_nil in Hw.
  - apply elem_of_cons in Hw as [->|Hw].
    + exists a. split; [rewrite !elem_of_cons; tauto|lia].
    + destruct (IH Hw) as (v & Hv & ->). exists v. split; [rewrite ?elem_of_cons in *; tauto|done].
  - destruct (IH Hw) as (v & Hv & ->). exists v. split; [rewrite ?elem_of_cons in *; tauto|done].
Qed.

(** Every created value is a tile of the merged line. *)
Lemma merge_created_kept (l : Row) (w : Z) :
  w ∈ merge_created l → w ∈ merge_row l.
Proof.
  merge_cases l; intros Hw.
  - by apply elem_of_nil in Hw.
  - by apply elem_of_nil in Hw.
  - apply elem_of_cons in Hw as [->|Hw]; [by left|]. right. by apply IH.
  - right. by apply IH.
Qed.

Lemma merge_row_fixed (l : Row) : adjacent_equalb l = false → merge_row l = l.
Proof. merge_cases l; intros Hadj; try done. by rewrite IH. Qed.

Lemma merge_row_shrinks (l : Row) :
  adjacent_equalb l = true → length (merge_row l) < length l.
Proof.
  merge_cases l; intros Hadj; try done.
  - pose proof (merge_row_length_le rest). simpl. lia.
  - specialize (IH Hadj). simpl in *. lia.
Qed.

(** ** Facts on [compress] *)

Lemma filter_nonzero (row : Row) :
  Forall (λ v, v ≠ 0%Z) (filter (λ num, num ≠ 0%Z) row).
Proof. apply Forall_forall. intros v Hv. by apply list_elem_of_filter in Hv as [? _]. Qed.

Lemma filter_nonzero_id (row : Row) :
  Forall (λ v, v ≠ 0%Z) row → filter (λ num, num ≠ 0%Z) row = row.
Proof.
  induction 1 as [|v row Hv _ IH]; [done|].
  by rewrite filter_cons_True, IH.
Qed.

Lemma sum_row_app (l k : Row) : sum_row (l ++ k) = (sum_row l + sum_row k)%Z.
Proof. induction l as [|a l IH]; simpl in *; lia. Qed.

Lemma sum_row_zeros (k : nat) : sum_row (replicate k 0%Z) = 0%Z.
Proof. induction k as [|k IH]; simpl in *; lia. Qed.

Lemma sum_row_filter (row : Row) :
  sum_row (filter (λ num, num ≠ 0%Z) row) = sum_row row.
Proof.
  induction row as [|a row IH]; [done|].
  rewrite filter_cons. destruct (decide (a ≠ 0%Z)) as [|Ha]; simpl in *; lia.
Qed.

Lemma sum_row_reverse (l : Row) : sum_row (reverse l) = sum_row l.
Proof.
  induction l as [|a l IH]; [done|].
  rewrite reverse_cons, sum_row_app. simpl in *. lia.
Qed.

(** The shape of a compressed line: tiles, then zeros. *)
Lemma compress_shape (row : Row) :
  ∃ (merged : Row) (k : nat),
    (compress row).1 = merged ++ replicate k 0%Z
    ∧ merged = merge_row (filter (λ num, num ≠ 0%Z) row)
    ∧ Forall (λ v, v ≠ 0%Z) merged
    ∧ length merged + k = length row.
Proof.
  eexists _, _. split; [reflexivity|]. split; [reflexivity|].
  split; [apply merge_row_nonzero, filter_nonzero|].
  pose proof (merge_row_length_le (filter (λ num, num ≠ 0%Z) row)).
  pose proof (length_filter (λ num, num ≠ 0%Z) row). lia.
Qed.

Lemma length_compress (row : Row) : length (compress row).1 = length row.
Proof.
  destruct (compress_shape row) as (merged & k & -> & _ & _ & Hlen).
  by rewrite length_app, length_replicate.
Qed.

Lemma compress_sum (row : Row) : sum_row (compress row).1 = sum_row row.
Proof.
  destruct (compress_shape row) as (merged & k & -> & -> & _ & _).
  by rewrite sum_row_app, sum_row_zeros, merge_row_sum, sum_row_filter, Z.add_0_r.
Qed.

Lemma compress_fixed (row : Row) :
  Forall (λ v, v ≠ 0%Z) row → adjacent_equalb row = false →
  (compress row).1 = row.
Proof.
  intros Hnz Hadj. unfold compress. cbn [fst].
  rewrite filter_nonzero_id, merge_row_fixed by done.
  by rewrite Nat.sub_diag, app_nil_r.
Qed.

Lemma compress_merges (row : Row) :
  Forall (λ v, v ≠ 0%Z) row → adjacent_equalb row = true →
  (compress row).1 ≠ row.
Proof.
  intros Hnz Hadj Hfix.
  destruct (compress_shape row) as (merged & k & Heq & -> & _ & Hlen).
  rewrite filter_nonzero_id in * by done.
  pose proof (merge_row_shrinks row Hadj).
  destruct k as [|k]; [lia|].
  rewrite Forall_forall in Hnz. apply (Hnz 0%Z); [|done].
  rewrite <- Hfix, Heq. apply elem_of_app. right. by left.
Qed.

Lemma compress_fixed_last (row : Row) :
  (compress row).1 = row → 0%Z ∈ row → last row = Some 0%Z.
Proof.
  intros Hfix Hzero.
  destruct (compress_shape row) as (merged & k & Heq & _ & Hnz & _).
  rewrite Hfix in Heq. destruct k as [|k].
  - rewrite app_nil_r in Heq. subst merged.
    rewrite Forall_forall in Hnz. by destruct (Hnz _ Hzero).
  - rewrite Heq, replicate_S_end, app_assoc. apply last_snoc.
Qed.

Lemma compress_fixed_head (row : Row) :
  (compress row).1 = row → head row = Some 0%Z → Forall (λ v, v = 0%Z) row.
Proof.
  intros Hfix Hhead.
  destruct (compress_shape row) as (merged & k & Heq & _ & Hnz & _).
  rewrite Hfix in Heq. destruct merged as [|a merged].
  - rewrite Heq. apply Forall_forall. intros v Hv.
    by apply elem_of_replicate in Hv as [-> _].
  - rewrite Heq in Hhead. simplify_eq/=. by inversion_clear Hnz.
Qed.

(** A line with an empty cell and a tile moves to the left or to the right. *)
Lemma compress_mixed (row : Row) (v : Z) :
  0%Z ∈ row → v ∈ row → v ≠ 0%Z →
  (compress row).1 ≠ row ∨ (compress (reverse row)).1 ≠ reverse row.
Proof.
  intros Hzero Hv Hnz.
  destruct (decide ((compress row).1 = row)) as [Hl|]; [|by left].
  right. intros Hr.
  apply compress_fixed_last in Hr; [|by apply elem_of_reverse].
  rewrite last_reverse in Hr.
  pose proof (compress_fixed_head row Hl Hr) as Hall.
  rewrite Forall_forall in Hall. by apply Hnz, Hall.
Qed.

(** ** Facts on [move_left] and [move_right] *)

Lemma move_left_map (board : Board) :
  move_left board
  = ((λ row, (compress row).1) <$> board,
     sum_row ((λ row, (compress row).2) <$> board)).
Proof.
  unfold move_left.
  assert (Hgen : ∀ (acc : Board) (s : Z),
    foldl (λ '(new_board, total_score) row,
             let '(new_row, score) := compress row in
             (new_board ++ [new_row], (total_score + score)%Z))
          (acc, s) board
    = (acc ++ ((λ row, (compress row).1) <$> board),
       (s + sum_row ((λ row, (compress row).2) <$> board))%Z)).
  { induction board as [|row board IH]; intros acc s.
    - simpl. by rewrite app_nil_r, Z.add_0_r.
    - cbn [foldl]. destruct (compress row) as [new_row sc] eqn:Hc.
      rewrite IH. rewrite <- app_assoc. cbn [fmap list_fmap app fst snd sum_row foldr].
      rewrite Hc. cbn [fst snd]. f_equal. fold (sum_row ((λ row0, (compress row0).2) <$> board)). lia. }
  rewrite Hgen. by rewrite Z.add_0_l.
Qed.

Lemma move_left_fixed (board : Board) :
  (move_left board).1 = board ↔ Forall (λ row, (compress row).1 = row) board.
Proof.
  rewrite move_left_map. cbn [fst].
  induction board as [|row board IH]; [by split|].
  rewrite fmap_cons, Forall_cons. split.
  - intros [= Hrow Hrest]. split; [done|]. by apply IH.
  - intros [Hrow Hrest]. f_equal; [done|]. by apply IH.
Qed.

Lemma move_right_map (board : Board) :
  move_right board
  = ((λ row, reverse (compress (reverse row)).1) <$> board,
     sum_row ((λ row, (compress (reverse row)).2) <$> board)).
Proof.
  unfold move_right, reverse_rows. rewrite move_left_map.
  by rewrite <- !list_fmap_compose.
Qed.

Lemma move_right_fixed (board : Board) :
  (move_right board).1 = board
  ↔ Forall (λ row, (compress (reverse row)).1 = reverse row) board.
Proof.
  rewrite move_right_map. cbn [fst].
  induction board as [|row board IH]; [by split|].
  rewrite fmap_cons, Forall_cons. split.
  - intros [= Hrow Hrest]. split; [|by apply IH].
    by rewrite <- Hrow at 2; rewrite reverse_involutive.
  - intros [Hrow Hrest]. f_equal; [|by apply IH].
    by rewrite Hrow, reverse_involutive.
Qed.

(** ** Facts on rectangular boards and [transpose] *)

Lemma is_rect_lookup (n m : nat) (board : Board) (i : nat) (row : Row) :
  is_rect n m board → board !! i = Some row → i < n ∧ length row = m.
Proof.
  intros [Hn Hm] Hi. split.
  - rewrite <- Hn. by eapply lookup_lt_Some.
  - rewrite Forall_forall in Hm. apply Hm. by eapply list_elem_of_lookup_2.
Qed.

Lemma is_rect_cell (n m : nat) (board : Board) (i j : nat) :
  is_rect n m board → i < n → j < m → is_Some (cell board i j).
Proof.
  intros Hrect Hi Hj. unfold cell.
  destruct (lookup_lt_is_Some_2 board i) as [row Hrow];
    [destruct Hrect; lia|].
  rewrite Hrow. cbn [mbind option_bind].
  apply lookup_lt_is_Some_2.
  destruct (is_rect_lookup _ _ _ _ _ Hrect Hrow). lia.
Qed.

Lemma cell_Some_lt (n m : nat) (board : Board) (i j : nat) (v : Z) :
  is_rect n m board → cell board i j = Some v → i < n ∧ j < m.
Proof.
  unfold cell. intros Hrect Hc.
  destruct (board !! i) as [row|] eqn:Hrow; [|done].
  destruct (is_rect_lookup _ _ _ _ _ Hrect Hrow) as [? <-].
  split; [done|]. by eapply lookup_lt_Some.
Qed.

(** Two boards of one shape with the same cells are equal. *)
Lemma board_ext (n m : nat) (b1 b2 : Board) :
  is_rect n m b1 → is_rect n m b2 →
  (∀ i j, cell b1 i j = cell b2 i j) → b1 = b2.
Proof.
  intros H1 H2 Hcell. apply list_eq. intros i.
  destruct (b1 !! i) as [r1|] eqn:Hr1, (b2 !! i) as [r2|] eqn:Hr2.
  - f_equal. apply list_eq. intros j.
    specialize (Hcell i j). unfold cell in Hcell. by rewrite Hr1, Hr2 in Hcell.
  - apply lookup_lt_Some in Hr1. apply lookup_ge_None in Hr2.
    destruct H1, H2. lia.
  - apply lookup_lt_Some in Hr2. apply lookup_ge_None in Hr1.
    destruct H1, H2. lia.
  - done.
Qed.

(** Column [j] of a board with at least one row is the list of the
    [row[j]], if every row has one. *)
Lemma zip_star_lookup (board : Board) (j : nat) :
  board ≠ [] → zip_star board !! j = mapM (λ row : Row, row !! j) board.
Proof.
  induction board as [|r [|r' rest] IH]; intros Hne; [done| |].
  - cbn [zip_star mapM]. rewrite list_lookup_fmap.
    by destruct (r !! j).
  - change (zip_star (r :: r' :: rest))
      with (zip_with cons r (zip_star (r' :: rest))).
    rewrite lookup_zip_with, IH by done.
    change (mapM (λ row : Row, row !! j) (r :: r' :: rest))
      with (x ← r !! j; k ← mapM (λ row : Row, row !! j) (r' :: rest); mret (x :: k)).
    done.
Qed.

Lemma mapM_column_lookup (board : Board) (j i : nat) (col : Row) :
  mapM (λ row : Row, row !! j) board = Some col →
  col !! i = cell board i j.
Proof.
  intros Hcol. apply mapM_Some_1 in Hcol. unfold cell.
  revert i. induction Hcol as [|row v board col Hv _ IH]; intros i; [done|].
  destruct i as [|i]; [by cbn; rewrite Hv|]. apply IH.
Qed.

Lemma transpose_cell (n m : nat) (board : Board) (i j : nat) :
  is_rect n m board → board ≠ [] →
  cell (transpose board) j i = cell board i j.
Proof.
  intros Hrect Hne. unfold transpose.
  unfold cell at 1. rewrite zip_star_lookup by done.
  destruct (mapM (λ row : Row, row !! j) board) as [col|] eqn:Hcol.
  - cbn [mbind option_bind]. by eapply mapM_column_lookup.
  - cbn [mbind option_bind]. apply mapM_None_1, Exists_exists in Hcol.
    destruct Hcol as (row & Hrow & Hnone).
    apply list_elem_of_lookup in Hrow as [i' Hrow].
    destruct (is_rect_lookup _ _ _ _ _ Hrect Hrow) as [_ Hlen].
    apply lookup_ge_None in Hnone.
    destruct (cell board i j) as [v|] eqn:Hc; [|done].
    apply (cell_Some_lt _ _ _ _ _ _ Hrect) in Hc. lia.
Qed.

Lemma zip_star_length (n m : nat) (board : Board) :
  is_rect n m board → board ≠ [] → length (zip_star board) = m.
Proof.
  intros [_ Hm]. revert Hm.
  induction board as [|r [|r' rest] IH]; intros Hm Hne; [done| |].
  - cbn [zip_star]. rewrite length_fmap. by inversion_clear Hm.
  - change (zip_star (r :: r' :: rest))
      with (zip_with cons r (zip_star (r' :: rest))).
    inversion_clear Hm as [|? ? Hr Hrest].
    rewrite length_zip_with, IH by done. lia.
Qed.

Lemma transpose_rect (n m : nat) (board : Board) :
  is_rect n m board → board ≠ [] → is_rect m n (transpose board).
Proof.
  intros Hrect Hne. split; [by eapply zip_star_length|].
  apply Forall_forall. intros col Hcol.
  apply list_elem_of_lookup in Hcol as [j Hcol].
  unfold transpose in Hcol. rewrite zip_star_lookup in Hcol by done.
  apply length_mapM in Hcol. destruct Hrect. lia.
Qed.

Lemma is_rect_nonempty (n m : nat) (board : Board) :
  is_rect n m board → 0 < n → board ≠ [].
Proof. intros [Hn _] Hpos ->. simpl in Hn. lia. Qed.

Lemma transpose_involutive (n m : nat) (board : Board) :
  is_rect n m board → 0 < n → 0 < m →
  transpose (transpose board) = board.
Proof.
  intros Hrect Hn Hm.
  pose proof (is_rect_nonempty _ _ _ Hrect Hn) as Hne.
  pose proof (transpose_rect _ _ _ Hrect Hne) as HrectT.
  pose proof (is_rect_nonempty _ _ _ HrectT Hm) as HneT.
  apply (board_ext n m); [by apply transpose_rect|done|].
  intros i j.
  by rewrite (transpose_cell m n), (transpose_cell n m).
Qed.

Lemma transpose_square (n : nat) (board : Board) :
  is_square n board → is_square n (transpose board).
Proof.
  intros Hsq. destruct board as [|r rest].
  - done.
  - by apply transpose_rect.
Qed.

Lemma transpose_square_involutive (n : nat) (board : Board) :
  is_square n board → transpose (transpose board) = board.
Proof.
  intros Hsq. destruct board as [|r rest]; [done|].
  apply (transpose_involutive n n); [done| |]; destruct Hsq as [<- _]; simpl; lia.
Qed.

Lemma board_sum_zip_cons (r : Row) (cols : Board) :
  length r = length cols →
  board_sum (zip_with cons r cols) = (sum_row r + board_sum cols)%Z.
Proof.
  revert cols. induction r as [|a r IH]; intros [|c cols] Hlen; try done.
  cbn [zip_with board_sum foldr sum_row] in *.
  fold (board_sum (zip_with cons r cols)). fold (board_sum cols). fold (sum_row r).
  fold (sum_row c). rewrite IH by (simpl in Hlen; lia). lia.
Qed.

Lemma board_sum_singletons (r : Row) :
  board_sum ((λ x, [x]) <$> r) = sum_row r.
Proof.
  induction r as [|a r IH]; [done|].
  cbn [fmap list_fmap board_sum foldr sum_row] in *.
  fold (board_sum ((λ x, [x]) <$> r)). fold (sum_row r). rewrite IH. lia.
Qed.

Lemma transpose_sum (n m : nat) (board : Board) :
  is_rect n m board → board_sum (transpose board) = board_sum board.
Proof.
  unfold transpose. intros [_ Hm]. clear n. revert Hm.
  induction board as [|r [|r' rest] IH]; intros Hm; [done| |].
  - cbn [zip_star]. rewrite board_sum_singletons. simpl. lia.
  - change (zip_star (r :: r' :: rest))
      with (zip_with cons r (zip_star (r' :: rest))).
    inversion_clear Hm as [|? ? Hr Hrest].
    rewrite board_sum_zip_cons.
    + rewrite IH by done. done.
    + rewrite (zip_star_length (length (r' :: rest)) m); [done| |done].
      by split.
Qed.

(** ** Shape and sum through the moves *)

Lemma move_up_fst (board : Board) :
  (move_up board).1 = transpose (move_left (transpose board)).1.
Proof. unfold move_up. by destruct (move_left (transpose board)). Qed.

Lemma move_down_fst (board : Board) :
  (move_down board).1 = transpose (move_right (transpose board)).1.
Proof. unfold move_down. by destruct (move_right (transpose board)). Qed.

Lemma is_rect_fmap (n m : nat) (f : Row → Row) (board : Board) :
  (∀ row, length (f row) = length row) →
  is_rect n m board → is_rect n m (f <$> board).
Proof.
  intros Hf [Hn Hm]. split; [by rewrite length_fmap|].
  apply Forall_fmap. eapply Forall_impl; [exact Hm|].
  intros row Hrow. simpl. by rewrite Hf.
Qed.

Lemma reverse_rows_rect (n m : nat) (board : Board) :
  is_rect n m board → is_rect n m (reverse_rows board).
Proof. apply is_rect_fmap. intros row. apply length_reverse. Qed.

Lemma move_left_rect (n m : nat) (board : Board) :
  is_rect n m board → is_rect n m (move_left board).1.
Proof.
  rewrite move_left_map. apply is_rect_fmap. intros row. apply length_compress.
Qed.

Lemma move_right_rect (n m : nat) (board : Board) :
  is_rect n m board → is_rect n m (move_right board).1.
Proof.
  rewrite move_right_map. apply is_rect_fmap. intros row.
  by rewrite length_reverse, length_compress, length_reverse.
Qed.

Lemma move_up_square (n : nat) (board : Board) :
  is_square n board → is_square n (move_up board).1.
Proof.
  intros Hsq. rewrite move_up_fst.
  by apply transpose_square, move_left_rect, transpose_square.
Qed.

Lemma move_down_square (n : nat) (board : Board) :
  is_square n board → is_square n (move_down board).1.
Proof.
  intros Hsq. rewrite move_down_fst.
  by apply transpose_square, move_right_rect, transpose_square.
Qed.

Lemma move_functions_square (d : Direction) (n : nat) (board : Board) :
  is_square n board → is_square n (move_functions d board).1.
Proof.
  destruct d; cbn [move_functions].
  - apply move_up_square.
  - apply move_down_square.
  - apply move_left_rect.
  - apply move_right_rect.
Qed.

Lemma board_sum_fmap (f : Row → Row) (board : Board) :
  (∀ row, sum_row (f row) = sum_row row) →
  board_sum (f <$> board) = board_sum board.
Proof.
  intros Hf. induction board as [|row board IH]; [done|].
  cbn [fmap list_fmap board_sum foldr] in *.
  fold (board_sum (f <$> board)). fold (board_sum board).
  by rewrite Hf, IH.
Qed.

Lemma move_left_sum (board : Board) :
  board_sum (move_left board).1 = board_sum board.
Proof. rewrite move_left_map. apply board_sum_fmap, compress_sum. Qed.

Lemma move_right_sum (board : Board) :
  board_sum (move_right board).1 = board_sum board.
Proof.
  rewrite move_right_map. apply board_sum_fmap. intros row.
  by rewrite sum_row_reverse, compress_sum, sum_row_reverse.
Qed.

Lemma move_up_sum (n : nat) (board : Board) :
  is_square n board → board_sum (move_up board).1 = board_sum board.
Proof.
  intros Hsq. rewrite move_up_fst.
  rewrite (transpose_sum n n) by by apply move_left_rect, transpose_square.
  by rewrite move_left_sum, (transpose_sum n n).
Qed.

Lemma move_down_sum (n : nat) (board : Board) :
  is_square n board → board_sum (move_down board).1 = board_sum board.
Proof.
  intros Hsq. rewrite move_down_fst.
  rewrite (transpose_sum n n) by by apply move_right_rect, transpose_square.
  by rewrite move_right_sum, (transpose_sum n n).
Qed.

(** ** What [get_empty_cells] and [can_move] compute *)

Lemma for_return_true_total {X} (body : X → option bool) (xs : list X) :
  (∀ x, x ∈ xs → is_Some (body x)) →
  ∃ b, for_return_true body xs = Some b
       ∧ (b = true ↔ ∃ x, x ∈ xs ∧ body x = Some true).
Proof.
  induction xs as [|x xs IH]; intros Htotal.
  - exists false. split; [done|]. split; [done|].
    intros (x & Hx & _). by apply elem_of_nil in Hx.
  - destruct (Htotal x) as [[|] Hbx]; [by left| |].
    + exists true. cbn [for_return_true]. rewrite Hbx. split; [done|].
      split; [|done]. intros _. exists x. split; [by left|done].
    + destruct IH as (b & Hb & Hiff).
      { intros y Hy. apply Htotal. by right. }
      exists b. cbn [for_return_true]. rewrite Hbx. split; [done|].
      rewrite Hiff. split.
      * intros (y & Hy & Hby). exists y. split; [by right|done].
      * intros (y & Hy & Hby). apply elem_of_cons in Hy as [->|Hy];
          [congruence|eauto].
Qed.

Lemma mapM_concat_total {X Y} (f : X → option (list Y)) (xs : list X) :
  (∀ x, x ∈ xs → is_Some (f x)) →
  ∃ yss, mapM f xs = Some yss
         ∧ ∀ y, y ∈ concat yss ↔ ∃ x ys, x ∈ xs ∧ f x = Some ys ∧ y ∈ ys.
Proof.
  induction xs as [|x xs IH]; intros Htotal.
  - exists []. split; [done|]. intros y. split.
    + intros Hy. by apply elem_of_nil in Hy.
    + intros (x & ys & Hx & _). by apply elem_of_nil in Hx.
  - destruct (Htotal x) as [ys Hys]; [by left|].
    destruct IH as (yss & Hyss & Hiff).
    { intros y Hy. apply Htotal. by right. }
    exists (ys :: yss). split.
    { cbn [mapM]. rewrite Hys, Hyss. done. }
    intros y. cbn [concat]. rewrite elem_of_app, Hiff. split.
    + intros [Hy|(x' & ys' & Hx' & Hf & Hy)].
      * exists x, ys. split; [by left|done].
      * exists x', ys'. split; [by right|done].
    + intros (x' & ys' & Hx' & Hf & Hy).
      apply elem_of_cons in Hx' as [->|Hx'].
      * left. congruence.
      * right. eauto.
Qed.

(** On a rectangular board the scan raises nothing and lists exactly the
    coordinates of the empty cells. *)
Lemma get_empty_cells_total (n m : nat) (board : Board) :
  is_rect n m board →
  ∃ cells, get_empty_cells board = Some cells
           ∧ ∀ i j, (i, j) ∈ cells ↔ cell board i j = Some 0%Z.
Proof.
  intros Hrect.
  pose (inner := λ (i j : nat),
         v ← cell board i j;
         Some (if bool_decide (v = 0%Z) then [(i, j)] else [])).
  pose (outer := λ i : nat,
         row0 ← board !! 0;
         (λ parts, concat parts) <$> mapM (inner i) (seq 0 (length row0))).
  change (get_empty_cells board)
    with ((λ parts, concat parts) <$> mapM outer (seq 0 (length board))).
  assert (Hinner : ∀ i, i < n →
    ∃ ps, outer i = Some ps ∧ ∀ p, p ∈ ps ↔ ∃ j, p = (i, j) ∧ cell board i j = Some 0%Z).
  { intros i Hi. unfold outer.
    destruct (lookup_lt_is_Some_2 board 0) as [row0 Hrow0]; [destruct Hrect; lia|].
    rewrite Hrow0. cbn [mbind option_bind].
    destruct (is_rect_lookup _ _ _ _ _ Hrect Hrow0) as [_ Hlen0].
    destruct (mapM_concat_total (inner i) (seq 0 (length row0))) as (yss & Hyss & Hiff).
    { intros j Hj. apply elem_of_seq in Hj. unfold inner.
      destruct (is_rect_cell n m board i j Hrect) as [v Hv]; [lia..|].
      rewrite Hv. by eexists. }
    exists (concat yss). rewrite Hyss. split; [done|].
    intros p. rewrite Hiff. split.
    - intros (j & ys & Hj & Hf & Hp). unfold inner in Hf.
      destruct (cell board i j) as [v|] eqn:Hv; [|done].
      cbn [mbind option_bind] in Hf. case_bool_decide; simplify_eq.
      + apply list_elem_of_singleton in Hp. eauto.
      + by apply elem_of_nil in Hp.
    - intros (j & -> & Hc). exists j, [(i, j)].
      destruct (cell_Some_lt _ _ _ _ _ _ Hrect Hc).
      split; [apply elem_of_seq; lia|]. split; [|by left].
      unfold inner. rewrite Hc. cbn [mbind option_bind].
      by rewrite bool_decide_eq_true_2. }
  destruct (mapM_concat_total outer (seq 0 (length board))) as (yss & Hyss & Hiff).
  { intros i Hi. apply elem_of_seq in Hi.
    destruct (Hinner i) as (ps & -> & _); [destruct Hrect; lia|]. by eexists. }
  exists (concat yss). rewrite Hyss. split; [done|].
  intros i j. rewrite Hiff. split.
  - intros (i' & ps & Hi' & Hf & Hp). apply elem_of_seq in Hi'.
    destruct (Hinner i') as (ps' & Hps' & Hin); [destruct Hrect; lia|].
    rewrite Hf in Hps'. simplify_eq.
    apply Hin in Hp as (j' & [= -> ->] & Hc). done.
  - intros Hc. destruct (cell_Some_lt _ _ _ _ _ _ Hrect Hc) as [Hi Hj].
    destruct (Hinner i Hi) as (ps & Hps & Hin).
    exists i, ps. split; [apply elem_of_seq; destruct Hrect; lia|].
    split; [done|]. apply Hin. eauto.
Qed.

Lemma adjacent_equalb_lookup (row : Row) :
  adjacent_equalb row = true
  ↔ ∃ i v, row !! i = Some v ∧ row !! (i + 1) = Some v.
Proof.
  induction row as [|a row IH]; [split; [done|by intros (i & v & ? & _)]|].
  destruct row as [|b rest].
  { split; [done|]. intros (i & v & H1 & H2). by destruct i. }
  cbn [adjacent_equalb]. rewrite orb_true_iff, bool_decide_eq_true, IH. split.
  - intros [->|(i & v & H1 & H2)].
    + by exists 0, b.
    + by exists (S i), v.
  - intros (i & v & H1 & H2). destruct i as [|i].
    + left. simpl in *. congruence.
    + right. by exists i, v.
Qed.

Lemma adjacent_equalb_reverse_1 (row : Row) :
  adjacent_equalb row = true → adjacent_equalb (reverse row) = true.
Proof.
  rewrite !adjacent_equalb_lookup. intros (i & v & H1 & H2).
  pose proof (lookup_lt_Some _ _ _ H2) as Hlt.
  exists (length row - S (i + 1)), v. split.
  - rewrite reverse_lookup by lia. rewrite <- H2. f_equal. lia.
  - rewrite reverse_lookup by lia. rewrite <- H1. f_equal. lia.
Qed.

Lemma adjacent_equalb_reverse (row : Row) :
  adjacent_equalb (reverse row) = adjacent_equalb row.
Proof.
  destruct (adjacent_equalb row) eqn:Hrow.
  - by apply adjacent_equalb_reverse_1.
  - destruct (adjacent_equalb (reverse row)) eqn:Hrev; [|done].
    apply adjacent_equalb_reverse_1 in Hrev.
    rewrite reverse_involutive in Hrev. congruence.
Qed.

(** The inner loop of the horizontal check. *)
Lemma row_scan_spec (row : Row) :
  for_return_true (λ i : nat,
    a ← row !! i; b ← row !! (i + 1); Some (bool_decide (a = b)))
    (seq 0 (length row - 1))
  = Some (adjacent_equalb row).
Proof.
  destruct (for_return_true_total (λ i : nat,
    a ← row !! i; b ← row !! (i + 1); Some (bool_decide (a = b)))
    (seq 0 (length row - 1))) as (b & -> & Hiff).
  { intros i Hi. apply elem_of_seq in Hi.
    destruct (lookup_lt_is_Some_2 row i) as [a ->]; [lia|].
    destruct (lookup_lt_is_Some_2 row (i + 1)) as [c ->]; [lia|].
    by eexists. }
  f_equal. apply eq_true_iff_eq. rewrite Hiff, adjacent_equalb_lookup. split.
  - intros (i & _ & Hi).
    destruct (row !! i) as [a|] eqn:Ha; [|done].
    destruct (row !! (i + 1)) as [c|] eqn:Hc; [|done].
    cbn [mbind option_bind] in Hi. simplify_eq.
    exists i, a. split; [done|]. rewrite Hc. f_equal.
    by apply bool_decide_eq_true_1 in Hi.
  - intros (i & v & H1 & H2). exists i. split.
    + apply elem_of_seq. apply lookup_lt_Some in H2. lia.
    + rewrite H1, H2. cbn [mbind option_bind]. by rewrite bool_decide_eq_true_2.
Qed.

Lemma cell_row (board : Board) (i j : nat) (v : Z) :
  cell board i j = Some v ↔ ∃ row, board !! i = Some row ∧ row !! j = Some v.
Proof.
  unfold cell. destruct (board !! i) as [row|]; cbn [mbind option_bind].
  - split; [eauto|]. by intros (? & [= <-] & ?).
  - split; [done|]. by intros (? & ? & _).
Qed.

(** The inner loop of the vertical check, for one column. *)
Lemma column_scan_spec (n m : nat) (board : Board) (col : nat) :
  is_rect n m board → col < m →
  ∃ b, for_return_true (λ row : nat,
         a ← cell board row col; b ← cell board (row + 1) col;
         Some (bool_decide (a = b))) (seq 0 (length board - 1)) = Some b
       ∧ (b = true ↔ ∃ i v, cell board i col = Some v
                            ∧ cell board (i + 1) col = Some v).
Proof.
  intros Hrect Hcol.
  destruct (for_return_true_total (λ row : nat,
         a ← cell board row col; b ← cell board (row + 1) col;
         Some (bool_decide (a = b))) (seq 0 (length board - 1)))
    as (b & Hb & Hiff).
  { intros i Hi. apply elem_of_seq in Hi.
    destruct (is_rect_cell n m board i col Hrect) as [a ->];
      [destruct Hrect; lia|done|].
    destruct (is_rect_cell n m board (i + 1) col Hrect) as [c ->];
      [destruct Hrect; lia|done|].
    by eexists. }
  exists b. split; [done|]. rewrite Hiff. split.
  - intros (i & _ & Hi).
    destruct (cell board i col) as [a|] eqn:Ha; [|done].
    destruct (cell board (i + 1) col) as [c|] eqn:Hc; [|done].
    cbn [mbind option_bind] in Hi. simplify_eq.
    apply bool_decide_eq_true_1 in Hi. subst c. by exists i, a.
  - intros (i & v & H1 & H2). exists i. split.
    + apply elem_of_seq.
      destruct (cell_Some_lt _ _ _ _ _ _ Hrect H2). destruct Hrect. lia.
    + rewrite H1, H2. cbn [mbind option_bind]. by rewrite bool_decide_eq_true_2.
Qed.

(** On a rectangular board with at least one row, [can_move] raises nothing
    and computes the cheap check. *)
Lemma can_move_total (n m : nat) (board : Board) :
  is_rect n m board → 0 < n →
  ∃ b, can_move board = Some b ∧ (b = true ↔ cheap_check board).
Proof.
  intros Hrect Hn. unfold can_move.
  destruct (get_empty_cells_total n m board Hrect) as (cells & -> & Hcells).
  cbn [mbind option_bind].
  destruct cells as [|[i j] cells].
  2:{ exists true. split; [done|]. split; [|done]. intros _. left.
      exists i, j. apply Hcells. by left. }
  assert (Hfull : ∀ i j, cell board i j ≠ Some 0%Z).
  { intros i j Hc. apply Hcells in Hc. by apply elem_of_nil in Hc. }
  destruct (for_return_true_total (λ row : Row,
        for_return_true (λ i : nat,
          a ← row !! i; b ← row !! (i + 1); Some (bool_decide (a = b)))
          (seq 0 (length row - 1))) board) as (h & -> & Hh).
  { intros row _. rewrite row_scan_spec. by eexists. }
  cbn [mbind option_bind].
  assert (Hh' : h = true ↔ ∃ i j v, cell board i j = Some v
                                    ∧ cell board i (j + 1) = Some v).
  { rewrite Hh. split.
    - intros (row & Hrow & Hscan). rewrite row_scan_spec in Hscan.
      simplify_eq. apply adjacent_equalb_lookup in Hscan as (j & v & H1 & H2).
      apply list_elem_of_lookup in Hrow as [i Hrow].
      exists i, j, v. rewrite !cell_row. split; eauto.
    - intros (i & j & v & H1 & H2).
      apply cell_row in H1 as (row & Hrow & H1).
      apply cell_row in H2 as (row' & Hrow' & H2). simplify_eq.
      exists row. split; [by eapply list_elem_of_lookup_2|].
      rewrite row_scan_spec. f_equal. apply adjacent_equalb_lookup. eauto. }
  destruct h.
  { exists true. split; [done|]. split; [|done]. intros _. right. left.
    by apply Hh'. }
  destruct (lookup_lt_is_Some_2 board 0) as [row0 Hrow0]; [destruct Hrect; lia|].
  rewrite Hrow0. cbn [mbind option_bind].
  destruct (is_rect_lookup _ _ _ _ _ Hrect Hrow0) as [_ Hlen0].
  destruct (for_return_true_total (λ col : nat,
        for_return_true (λ row : nat,
          a ← cell board row col; b ← cell board (row + 1) col;
          Some (bool_decide (a = b))) (seq 0 (length board - 1)))
        (seq 0 (length row0))) as (c & -> & Hc).
  { intros col Hcol. apply elem_of_seq in Hcol.
    destruct (column_scan_spec n m board col Hrect) as (b & -> & _); [lia|].
    by eexists. }
  exists c. split; [done|]. rewrite Hc. split.
  - intros (col & Hcol & Hscan). apply elem_of_seq in Hcol.
    destruct (column_scan_spec n m board col Hrect) as (b & Hb & Hiff); [lia|].
    rewrite Hb in Hscan. simplify_eq.
    destruct Hiff as [Hiff _]. destruct (Hiff eq_refl) as (i & v & H1 & H2).
    right. right. by exists i, col, v.
  - intros [(i & j & H0)|[Hrow|(i & j & v & H1 & H2)]].
    + by destruct (Hfull i j).
    + apply Hh' in Hrow. done.
    + destruct (cell_Some_lt _ _ _ _ _ _ Hrect H1) as [_ Hj].
      exists j. split; [apply elem_of_seq; lia|].
      destruct (column_scan_spec n m board j Hrect) as (b & Hb & Hiff); [lia|].
      rewrite Hb. f_equal. apply Hiff. eauto.
Qed.

(** ** When a move changes the board *)

Lemma mixed_row_moves (board : Board) (row : Row) (v : Z) :
  row ∈ board → 0%Z ∈ row → v ∈ row → v ≠ 0%Z →
  (move_left board).1 ≠ board ∨ (move_right board).1 ≠ board.
Proof.
  intros Hrow Hzero Hv Hnz.
  destruct (compress_mixed row v Hzero Hv Hnz) as [Hl|Hr].
  - left. intros Hfix. apply move_left_fixed in Hfix.
    rewrite Forall_forall in Hfix. by apply Hl, Hfix.
  - right. intros Hfix. apply move_right_fixed in Hfix.
    rewrite Forall_forall in Hfix. by apply Hr, Hfix.
Qed.

Lemma merging_row_moves (board : Board) (row : Row) :
  row ∈ board → Forall (λ v, v ≠ 0%Z) row → adjacent_equalb row = true →
  (move_left board).1 ≠ board.
Proof.
  intros Hrow Hnz Hadj Hfix. apply move_left_fixed in Hfix.
  rewrite Forall_forall in Hfix. by apply (compress_merges row Hnz Hadj), Hfix.
Qed.

Lemma transpose_inj_square (n : nat) (b1 b2 : Board) :
  is_square n b1 → is_square n b2 → transpose b1 = b2 → b1 = transpose b2.
Proof.
  intros H1 H2 <-. by rewrite (transpose_square_involutive n).
Qed.

Lemma move_up_changes (n : nat) (board : Board) :
  is_square n board →
  (move_left (transpose board)).1 ≠ transpose board → (move_up board).1 ≠ board.
Proof.
  intros Hsq Hne Hfix. apply Hne. rewrite move_up_fst in Hfix.
  apply (transpose_inj_square n); [|done..].
  by apply move_left_rect, transpose_square.
Qed.

Lemma move_down_changes (n : nat) (board : Board) :
  is_square n board →
  (move_right (transpose board)).1 ≠ transpose board → (move_down board).1 ≠ board.
Proof.
  intros Hsq Hne Hfix. apply Hne. rewrite move_down_fst in Hfix.
  apply (transpose_inj_square n); [|done..].
  by apply move_right_rect, transpose_square.
Qed.

(** An empty cell and a tile on the same board: some direction slides. *)
Lemma empty_and_tile_moves (n : nat) (board : Board) (i0 j0 i1 j1 : nat) (v : Z) :
  is_square n board →
  cell board i0 j0 = Some 0%Z → cell board i1 j1 = Some v → v ≠ 0%Z →
  some_move_changes board.
Proof.
  intros Hsq H0 H1 Hv. unfold some_move_changes.
  apply cell_row in H0 as (row0 & Hrow0 & H0).
  destruct (decide (Forall (λ x, x = 0%Z) row0)) as [Hall|Hsome].
  - assert (Hne : board ≠ []) by (by intros ->).
    destruct (cell_Some_lt _ _ _ _ _ _ Hsq H1) as [_ Hj1].
    destruct (is_rect_lookup _ _ _ _ _ Hsq Hrow0) as [_ Hlen0].
    destruct (lookup_lt_is_Some_2 row0 j1) as [x Hx]; [lia|].
    assert (x = 0%Z) as ->.
    { rewrite Forall_forall in Hall. apply Hall. by eapply list_elem_of_lookup_2. }
    assert (Hc0 : cell (transpose board) j1 i0 = Some 0%Z).
    { rewrite (transpose_cell n n) by done. apply cell_row. eauto. }
    assert (Hc1 : cell (transpose board) j1 i1 = Some v).
    { by rewrite (transpose_cell n n). }
    apply cell_row in Hc0 as (col & Hcol & Hc0).
    apply cell_row in Hc1 as (col' & Hcol' & Hc1). simplify_eq.
    destruct (mixed_row_moves (transpose board) col v) as [Hl|Hr]; try done.
    + by eapply list_elem_of_lookup_2.
    + by eapply list_elem_of_lookup_2.
    + by eapply list_elem_of_lookup_2.
    + left. by eapply move_up_changes.
    + right. left. by eapply move_down_changes.
  - apply not_Forall_Exists in Hsome; [|apply _].
    apply Exists_exists in Hsome as (w & Hw & Hwnz).
    destruct (mixed_row_moves board row0 w) as [Hl|Hr]; try done.
    + by eapply list_elem_of_lookup_2.
    + by eapply list_elem_of_lookup_2.
    + right. right. by left.
    + right. right. by right.
Qed.

(** Rows without an empty cell and without two equal neighbours. *)
Lemma rows_blocked (board : Board) :
  (∀ i j, cell board i j ≠ Some 0%Z) →
  (∀ i j v, cell board i j = Some v → cell board i (j + 1) ≠ Some v) →
  Forall (λ row, Forall (λ v, v ≠ 0%Z) row ∧ adjacent_equalb row = false) board.
Proof.
  intros Hfull Hadj. apply Forall_forall. intros row Hrow.
  apply list_elem_of_lookup in Hrow as [i Hrow]. split.
  - apply Forall_forall. intros v Hv ->.
    apply list_elem_of_lookup in Hv as [j Hv].
    apply (Hfull i j), cell_row. eauto.
  - destruct (adjacent_equalb row) eqn:Hrowadj; [|done].
    apply adjacent_equalb_lookup in Hrowadj as (j & v & H1 & H2).
    destruct (Hadj i j v); apply cell_row; eauto.
Qed.

Lemma blocked_left_right (board : Board) :
  Forall (λ row, Forall (λ v, v ≠ 0%Z) row ∧ adjacent_equalb row = false) board →
  (move_left board).1 = board ∧ (move_right board).1 = board.
Proof.
  intros Hblocked. split.
  - apply move_left_fixed. eapply Forall_impl; [exact Hblocked|].
    intros row [Hnz Hadj]. by apply compress_fixed.
  - apply move_right_fixed. eapply Forall_impl; [exact Hblocked|].
    intros row [Hnz Hadj]. apply compress_fixed.
    + by apply Forall_reverse.
    + by rewrite adjacent_equalb_reverse.
Qed.

(** Without the cheap check, no direction changes a square board. *)
Lemma blocked_board_fixed (n : nat) (board : Board) :
  is_square n board → ¬ cheap_check board → ¬ some_move_changes board.
Proof.
  intros Hsq Hcheap.
  assert (Hfull : ∀ i j, cell board i j ≠ Some 0%Z).
  { intros i j Hc. apply Hcheap. left. eauto. }
  assert (Hrows : ∀ i j v, cell board i j = Some v → cell board i (j + 1) ≠ Some v).
  { intros i j v H1 H2. apply Hcheap. right. left. eauto. }
  assert (Hcols : ∀ i j v, cell board i j = Some v → cell board (i + 1) j ≠ Some v).
  { intros i j v H1 H2. apply Hcheap. right. right. eauto. }
  destruct (blocked_left_right board (rows_blocked board Hfull Hrows)) as [Hl Hr].
  assert (HT : (move_left (transpose board)).1 = transpose board
               ∧ (move_right (transpose board)).1 = transpose board).
  { destruct board as [|r rest]; [done|].
    apply blocked_left_right, rows_blocked.
    - intros j i. rewrite (transpose_cell n n) by done. apply Hfull.
    - intros j i v. rewrite !(transpose_cell n n) by done. apply Hcols. }
  destruct HT as [HTl HTr].
  intros [Hu|[Hd|[?|?]]]; try done.
  - apply Hu. by rewrite move_up_fst, HTl, (transpose_square_involutive n).
  - apply Hd. by rewrite move_down_fst, HTr, (transpose_square_involutive n).
Qed.

(** With the cheap check and at least one tile, some direction changes a
    square board. *)
Lemma cheap_check_moves (n : nat) (board : Board) :
  is_square n board →
  (∃ i j v, cell board i j = Some v ∧ v ≠ 0%Z) →
  cheap_check board → some_move_changes board.
Proof.
  intros Hsq (i1 & j1 & w & Hw & Hwnz) Hcheap.
  destruct (decide (Forall (λ row : Row, Forall (λ v, v ≠ 0%Z) row) board))
    as [Hfull|Hempty].
  - assert (Hfull' : ∀ i j, cell board i j ≠ Some 0%Z).
    { intros i j Hc. apply cell_row in Hc as (row & Hrow & Hc).
      rewrite Forall_forall in Hfull.
      specialize (Hfull row ltac:(by eapply list_elem_of_lookup_2)).
      rewrite Forall_forall in Hfull.
      by apply (Hfull 0%Z); [eapply list_elem_of_lookup_2|]. }
    assert (Hne : board ≠ []) by (by intros ->).
    destruct Hcheap as [(i & j & Hc)|[(i & j & v & H1 & H2)|(i & j & v & H1 & H2)]].
    + by destruct (Hfull' i j).
    + right. right. left.
      apply cell_row in H1 as (row & Hrow & H1).
      apply cell_row in H2 as (row' & Hrow' & H2). simplify_eq.
      apply (merging_row_moves board row).
      * by eapply list_elem_of_lookup_2.
      * rewrite Forall_forall in Hfull. apply Hfull.
        by eapply list_elem_of_lookup_2.
      * apply adjacent_equalb_lookup. eauto.
    + left. apply (move_up_changes n); [done|].
      rewrite <- (transpose_cell n n) in H1, H2 by done.
      apply cell_row in H1 as (col & Hcol & H1).
      apply cell_row in H2 as (col' & Hcol' & H2). simplify_eq.
      apply (merging_row_moves (transpose board) col).
      * by eapply list_elem_of_lookup_2.
      * apply Forall_forall. intros x Hx ->.
        apply list_elem_of_lookup in Hx as [k Hx].
        apply (Hfull' k j). rewrite <- (transpose_cell n n) by done.
        apply cell_row. eauto.
      * apply adjacent_equalb_lookup. eauto.
  - apply not_Forall_Exists in Hempty; [|apply _].
    apply Exists_exists in Hempty as (row & Hrow & Hrowz).
    apply not_Forall_Exists in Hrowz; [|apply _].
    apply Exists_exists in Hrowz as (z & Hz & Hz0).
    assert (z = 0%Z) as -> by (destruct (decide (z = 0%Z)); [done|by destruct Hz0]).
    apply list_elem_of_lookup in Hrow as [i0 Hrow].
    apply list_elem_of_lookup in Hz as [j0 Hz].
    apply (empty_and_tile_moves n board i0 j0 i1 j1 w); try done.
    apply cell_row. eauto.
Qed.

(** ** Spawning *)

Lemma set_cell_spec (n m : nat) (board : Board) (i j : nat) (old v : Z) :
  is_rect n m board → cell board i j = Some old →
  ∃ board', set_cell board i j v = Some board'
    ∧ is_rect n m board'
    ∧ cell board' i j = Some v
    ∧ ∀ i' j', (i', j') ≠ (i, j) → cell board' i' j' = cell board i' j'.
Proof.
  intros Hrect Hc. apply cell_row in Hc as (row & Hrow & Hj).
  pose proof (lookup_lt_Some _ _ _ Hrow) as Hi.
  pose proof (lookup_lt_Some _ _ _ Hj) as Hjlt.
  destruct (is_rect_lookup _ _ _ _ _ Hrect Hrow) as [_ Hlen].
  exists (<[i := <[j := v]> row]> board). unfold set_cell.
  rewrite Hrow. cbn [mbind option_bind].
  rewrite bool_decide_eq_true_2 by done. split; [done|]. split; [|split].
  - destruct Hrect as [Hn Hm]. split; [by rewrite length_insert|].
    apply Forall_insert; [done|]. by rewrite length_insert.
  - unfold cell. rewrite list_lookup_insert_eq by done.
    cbn [mbind option_bind]. by apply list_lookup_insert_eq.
  - intros i' j' Hne. unfold cell.
    destruct (decide (i' = i)) as [->|Hi'].
    + rewrite list_lookup_insert_eq, Hrow by done. cbn [mbind option_bind].
      apply list_lookup_insert_ne. congruence.
    + by rewrite list_lookup_insert_ne.
Qed.

(** What [add_random_tile] does on a rectangular board, whatever the
    generator draws. *)
Lemma add_random_tile_spec (n m : nat) (board : Board) (g : Random) :
  is_rect n m board →
  ∃ board' g', add_random_tile board g = Some (board', g')
    ∧ is_rect n m board'
    ∧ ((∀ i j, cell board i j ≠ Some 0%Z) → board' = board ∧ g' = g)
    ∧ ((∃ i j, cell board i j = Some 0%Z) →
         ∃ i j v, cell board i j = Some 0%Z ∧ (v = 2%Z ∨ v = 4%Z)
           ∧ cell board' i j = Some v
           ∧ ∀ i' j', (i', j') ≠ (i, j) → cell board' i' j' = cell board i' j').
Proof.
  intros Hrect. unfold add_random_tile.
  destruct (get_empty_cells_total n m board Hrect) as (cells & -> & Hcells).
  cbn [mbind option_bind].
  destruct cells as [|p cells].
  - exists board, g. split; [done|]. split; [done|]. split; [done|].
    intros (i & j & Hc). apply Hcells in Hc. by apply elem_of_nil in Hc.
  - unfold random_choice.
    destruct (lookup_lt_is_Some_2 (p :: cells)
                (picks g (n_picks g) mod length (p :: cells))) as [[i j] Hpick].
    { apply Nat.mod_upper_bound. done. }
    rewrite Hpick. cbn [mbind option_bind random_lt_09 picks coins n_picks n_coins].
    assert (Hc : cell board i j = Some 0%Z).
    { apply Hcells. by eapply list_elem_of_lookup_2. }
    set (v := if coins g (n_coins g) then 2%Z else 4%Z).
    destruct (set_cell_spec n m board i j 0%Z v Hrect Hc)
      as (board' & -> & Hrect' & Hnew & Hframe).
    cbn [mbind option_bind]. eexists _, _. split; [done|]. split; [done|]. split.
    + intros Hfull. by destruct (Hfull i j).
    + intros _. exists i, j, v. split; [done|]. split; [|done].
      unfold v. destruct (coins g (n_coins g)); auto.
Qed.

Lemma create_board_square (size : Z) :
  is_square (Z.to_nat size) (create_board size).
Proof.
  unfold create_board. split; [apply length_replicate|].
  apply Forall_replicate, length_replicate.
Qed.

Lemma initialize_game_total (size : Z) (g : Random) :
  ∃ board g', initialize_game size g = Some (board, g')
              ∧ is_square (Z.to_nat size) board.
Proof.
  unfold initialize_game.
  destruct (add_random_tile_spec _ _ _ g (create_board_square size))
    as (b1 & g1 & -> & Hsq1 & _).
  cbn [mbind option_bind].
  destruct (add_random_tile_spec _ _ _ g1 Hsq1) as (b2 & g2 & -> & Hsq2 & _).
  cbn [mbind option_bind]. by eexists _, _.
Qed.

(** ** The session *)

Lemma restart_game_total (self : Game2048.t) :
  ∃ self', Game2048.restart_game self = Some self'
    ∧ session_ok self'
    ∧ Game2048.game_won self' = false
    ∧ Game2048.score self' = 0%Z
    ∧ Game2048.size self' = Game2048.size self.
Proof.
  unfold Game2048.restart_game.
  destruct (initialize_game_total (Game2048.size self) (Game2048.random self))
    as (board & g & -> & Hsq).
  cbn [mbind option_bind]. eexists. split; [reflexivity|].
  split; [exact Hsq|done].
Qed.

Lemma restart_game_flag (self self' : Game2048.t) :
  Game2048.restart_game self = Some self' → Game2048.game_won self' = false.
Proof.
  unfold Game2048.restart_game. intros Hr.
  destruct (initialize_game _ _) as [[board g]|]; [|done].
  cbn [mbind option_bind] in Hr. by simplify_eq.
Qed.

Lemma one_win_per_game_app (flag : bool) (shown1 shown2 : list Event) :
  Game2048.one_win_per_game flag (shown1 ++ shown2)
  = flag' ← Game2048.one_win_per_game flag shown1;
    Game2048.one_win_per_game flag' shown2.
Proof.
  revert flag. induction shown1 as [|e shown1 IH]; intros flag; [done|].
  destruct e; cbn [app Game2048.one_win_per_game]; [|apply IH..].
  destruct flag; [done|apply IH].
Qed.

(** One call of [make_move] shows [YouWin] only with the flag clear, sets
    the flag then, and clears it only through [restart_game]. *)
Lemma make_move_flag (move_function : Board → Board * Z) (response : bool)
    (self self' : Game2048.t) (shown : list Event) :
  Game2048.make_move move_function response self = Some (self', shown) →
  Game2048.one_win_per_game (Game2048.game_won self) shown
  = Some (Game2048.game_won self').
Proof.
  unfold Game2048.make_move.
  destruct (move_function (Game2048.board self)) as [new_board gained].
  destruct (negb (boards_equal _ _)); [|by intros [= <- <-]].
  destruct (add_random_tile _ _) as [[spawned g]|]; [|done].
  cbn [mbind option_bind Game2048.game_won Game2048.board Game2048.size
       Game2048.score Game2048.random].
  destruct (Game2048.game_won self) eqn:Hflag; cbn [negb andb].
  - destruct (game_over spawned) as [[|]|]; cbn [mbind option_bind]; [|by intros [= <- <-]|done].
    destruct response; [|by intros [= <- <-]].
    destruct (Game2048.restart_game _) as [self3|] eqn:Hr; [|done].
    cbn [mbind option_bind]. intros [= <- <-]. cbn.
    by rewrite (restart_game_flag _ _ Hr).
  - destruct (has_won spawned 2048).
    + destruct response; cbn [negb]; [by intros [= <- <-]|].
      destruct (Game2048.restart_game _) as [self3|] eqn:Hr; [|done].
      cbn [mbind option_bind]. intros [= <- <-]. cbn.
      by rewrite (restart_game_flag _ _ Hr).
    + destruct (game_over spawned) as [[|]|]; cbn [mbind option_bind]; [|by intros [= <- <-]|done].
      destruct response; [|by intros [= <- <-]].
      destruct (Game2048.restart_game _) as [self3|] eqn:Hr; [|done].
      cbn [mbind option_bind]. intros [= <- <-]. cbn.
      by rewrite (restart_game_flag _ _ Hr).
Qed.

Lemma square_zero_nil (board : Board) : is_square 0 board → board = [].
Proof. intros [Hlen _]. by destruct board. Qed.

(** On a session that owns a square board, [make_move] raises nothing and
    hands back such a session. *)
Lemma make_move_total (d : Direction) (response : bool) (self : Game2048.t) :
  session_ok self →
  ∃ self' shown,
    Game2048.make_move (move_functions d) response self = Some (self', shown)
    ∧ session_ok self'
    ∧ Game2048.size self' = Game2048.size self.
Proof.
  intros Hok. unfold Game2048.make_move.
  pose proof (move_functions_square d _ _ Hok) as Hmoved.
  destruct (move_functions d (Game2048.board self)) as [new_board gained].
  cbn [fst] in Hmoved. unfold boards_equal.
  case_bool_decide as Hsame; cbn [negb]; [by eexists _, _|].
  assert (Hpos : 0 < Z.to_nat (Game2048.size self)).
  { unfold session_ok in Hok.
    destruct (Z.to_nat (Game2048.size self)) eqn:Hn; [|lia].
    rewrite (square_zero_nil _ Hok), (square_zero_nil _ Hmoved) in Hsame. done. }
  destruct (add_random_tile_spec _ _ _ (Game2048.random self) Hmoved)
    as (spawned & g & -> & Hsq & _).
  cbn [mbind option_bind Game2048.game_won Game2048.board Game2048.size
       Game2048.score Game2048.random].
  destruct (can_move_total _ _ _ Hsq Hpos) as (b & Hb & _).
  unfold game_over. rewrite Hb. cbn [fmap option_fmap option_map mbind option_bind].
  destruct (negb (Game2048.game_won self) && has_won spawned 2048).
  - destruct response; cbn [negb]; [by eexists _, _|].
    destruct (restart_game_total
      (Game2048.mk (Game2048.size self) spawned
         (Game2048.score self + gained)%Z true g)) as (s3 & -> & Hok3 & _ & _ & Hsz).
    cbn [mbind option_bind]. by eexists _, _.
  - destruct (negb b); [|by eexists _, _].
    destruct response; [|by eexists _, _].
    destruct (restart_game_total
      (Game2048.mk (Game2048.size self) spawned
         (Game2048.score self + gained)%Z (Game2048.game_won self) g))
      as (s3 & -> & Hok3 & _ & _ & Hsz).
    cbn [mbind option_bind]. by eexists _, _.
Qed.

Lemma step_total (a : Game2048.Action) (self : Game2048.t) :
  session_ok self →
  ∃ self' shown, Game2048.step a self = Some (self', shown)
    ∧ session_ok self'
    ∧ Game2048.one_win_per_game (Game2048.game_won self) shown
      = Some (Game2048.game_won self').
Proof.
  intros Hok. destruct a as [d response|]; cbn [Game2048.step].
  - destruct (make_move_total d response self Hok) as (s' & shown & Hmm & Hok' & _).
    exists s', shown. split; [done|]. split; [done|]. by eapply make_move_flag.
  - destruct (restart_game_total self) as (s' & -> & Hok' & Hflag & _).
    cbn [mbind option_bind]. exists s', [Restarted]. split; [done|].
    split; [done|]. cbn. by rewrite Hflag.
Qed.

Lemma run_total (actions : list Game2048.Action) (self : Game2048.t) :
  session_ok self →
  ∃ self' shown, Game2048.run actions self = Some (self', shown)
    ∧ session_ok self'
    ∧ Game2048.one_win_per_game (Game2048.game_won self) shown
      = Some (Game2048.game_won self').
Proof.
  revert self. induction actions as [|a actions IH]; intros self Hok.
  - by exists self, [].
  - cbn [Game2048.run].
    destruct (step_total a self Hok) as (s1 & shown1 & -> & Hok1 & Hflag1).
    cbn [mbind option_bind].
    destruct (IH s1 Hok1) as (s2 & shown2 & -> & Hok2 & Hflag2).
    cbn [mbind option_bind]. exists s2, (shown1 ++ shown2).
    split; [done|]. split; [done|].
    by rewrite one_win_per_game_app, Hflag1.
Qed.





(** ** The pass of [compress], case by case *)

Lemma compress_compaction (row : Row) :
  compress row
  = ((compress (filter (λ num, num ≠ 0%Z) row)).1
       ++ replicate (length row - length (filter (λ num, num ≠ 0%Z) row)) 0%Z,
     (compress (filter (λ num, num ≠ 0%Z) row)).2).
Proof.
  unfold compress. cbn [fst snd].
  rewrite (filter_nonzero_id (filter _ row)) by apply filter_nonzero.
  pose proof (merge_row_length_le (filter (λ num, num ≠ 0%Z) row)).
  pose proof (length_filter (λ num, num ≠ 0%Z) row).
  rewrite <- app_assoc, <- replicate_add. do 3 f_equal. lia.
Qed.

Lemma compress_pair (a : Z) (rest : Row) :
  a ≠ 0%Z → Forall (λ v, v ≠ 0%Z) rest →
  compress (a :: a :: rest)
  = ((a * 2)%Z :: (compress rest).1 ++ [0%Z], (a * 2 + (compress rest).2)%Z).
Proof.
  intros Ha Hrest. unfold compress. cbn [fst snd].
  rewrite (filter_nonzero_id (a :: a :: rest)) by (by repeat constructor).
  rewrite (filter_nonzero_id rest) by done.
  rewrite merge_row_eq, merge_gain_eq.
  pose proof (merge_row_length_le rest). cbn [length].
  replace (S (S (length rest)) - S (length (merge_row rest)))
    with (S (length rest - length (merge_row rest))) by lia.
  by rewrite replicate_S_end, <- !app_assoc.
Qed.

Lemma compress_keep (a b : Z) (rest : Row) :
  a ≠ 0%Z → b ≠ 0%Z → a ≠ b → Forall (λ v, v ≠ 0%Z) rest →
  compress (a :: b :: rest)
  = (a :: (compress (b :: rest)).1, (compress (b :: rest)).2).
Proof.
  intros Ha Hb Hab Hrest. unfold compress. cbn [fst snd].
  rewrite (filter_nonzero_id (a :: b :: rest)) by (by repeat constructor).
  rewrite (filter_nonzero_id (b :: rest)) by (by constructor).
  by rewrite merge_row_ne, merge_gain_ne by done.
Qed.

(** ** Spawning on a board given as objects *)

Lemma mapM_lookup {X Y} (f : X → option Y) (xs : list X) (ys : list Y) (i : nat) :
  mapM f xs = Some ys → ys !! i = xs !! i ≫= f.
Proof.
  intros Hm. apply mapM_Some_1 in Hm. revert i.
  induction Hm as [|x y xs ys Hxy _ IH]; intros [|i]; try done.
  apply IH.
Qed.

(** Writing one row object of a board without shared rows changes the one
    position that refers to it. *)
Lemma board_of_update (rows : list Row) (refs : list nat) (board : Board)
    (i r : nat) (row' : Row) :
  NoDup refs →
  mapM (λ r, rows !! r) refs = Some board →
  refs !! i = Some r →
  mapM (λ r', <[r := row']> rows !! r') refs = Some (<[i := row']> board).
Proof.
  intros Hnodup. revert i board.
  induction Hnodup as [|r0 refs Hnotin _ IH]; intros i board Hboard Hi; [done|].
  apply mapM_Some_1 in Hboard.
  inversion Hboard as [|? x ? bt Hx Hbt]; subst. apply mapM_Some_2 in Hbt.
  apply mapM_Some_2. destruct i as [|i].
  - injection Hi as ->. cbn [insert list_insert]. constructor.
    + apply list_lookup_insert_eq. by eapply lookup_lt_Some.
    + apply mapM_Some_1. rewrite (Forall_mapM_ext _ (λ r', rows !! r')); [done|].
      apply Forall_forall. intros r' Hr'. apply list_lookup_insert_ne.
      by intros ->.
  - change ((r0 :: refs) !! S i) with (refs !! i) in Hi.
    change (<[S i := row']> (x :: bt)) with (x :: <[i := row']> bt).
    constructor.
    + rewrite list_lookup_insert_ne; [done|].
      intros ->. by apply Hnotin, list_elem_of_lookup_2 with i.
    + by apply mapM_Some_1, IH.
Qed.

(** On a board whose rows are distinct objects, [add_random_tile] on
    objects is [add_random_tile] on the grid. *)
Lemma add_random_tile_obj_distinct (b : ObjBoard) (board : Board) (g : Random) :
  NoDup (row_refs b) → board_of b = Some board →
  match add_random_tile board g with
  | Some (board', g') =>
      ∃ b', add_random_tile_obj b g = Some (b', g')
            ∧ board_of b' = Some board' ∧ row_refs b' = row_refs b
  | None => add_random_tile_obj b g = None
  end.
Proof.
  destruct b as [rows refs]. unfold board_of. cbn [row_objects row_refs].
  intros Hnodup Hboard.
  unfold add_random_tile, add_random_tile_obj, deepcopy, board_of.
  cbn [row_objects row_refs]. rewrite Hboard. cbn [mbind option_bind].
  destruct (get_empty_cells board) as [[|p cells]|]; cbn [mbind option_bind];
    [by eexists| |done].
  destruct (random_choice (p :: cells) g) as [[[i j] g1]|];
    cbn [mbind option_bind]; [|done].
  destruct (random_lt_09 g1) as [lt g2].
  unfold set_cell, set_cell_obj. cbn [row_objects row_refs].
  rewrite (mapM_lookup _ _ _ i Hboard).
  destruct (refs !! i) as [r|] eqn:Hr; cbn [mbind option_bind]; [|done].
  destruct (rows !! r) as [row|] eqn:Hrow; cbn [mbind option_bind]; [|done].
  case_bool_decide; cbn [mbind option_bind]; [|done].
  eexists. split; [done|]. cbn [row_objects row_refs]. split; [|done].
  by apply board_of_update.
Qed.

(** * The claims *)

(** C1, as stated, fails: on the all-zero 2x2 board, which is square,
    [can_move] answers [True] because a cell is empty, and yet none of the
    four movers returns a board different from its input. *)
Lemma can_move_all_zero_counterexample :
  is_square 2 [[0; 0]; [0; 0]]%Z
  ∧ ¬ (can_move [[0; 0]; [0; 0]]%Z = Some true
       ↔ some_move_changes [[0; 0]; [0; 0]]%Z).
Proof.
  split; [split; [done|by repeat constructor]|].
  intros [Hmoves _]. destruct (Hmoves eq_refl) as [H|[H|[H|H]]]; by apply H.
Qed.

(** C1, amended: for every square board that holds at least one tile,
    [can_move] returns a boolean, which is the cheap check (an empty cell,
    or two equal neighbours in a row, or two equal neighbours in a column)
    and which is true if and only if at least one of [move_up], [move_down],
    [move_left], [move_right] returns a board different from its input. *)
Theorem can_move_iff_some_move_changes (n : nat) (board : Board) :
  is_square n board →
  (∃ i j v, cell board i j = Some v ∧ v ≠ 0%Z) →
  ∃ b, can_move board = Some b
       ∧ (b = true ↔ cheap_check board)
       ∧ (b = true ↔ some_move_changes board).
Proof.
  intros Hsq Htile.
  assert (Hn : 0 < n).
  { destruct Htile as (i & j & v & Hc & _).
    destruct (cell_Some_lt _ _ _ _ _ _ Hsq Hc). lia. }
  destruct (can_move_total n n board Hsq Hn) as (b & Hb & Hcheap).
  exists b. split; [done|]. split; [done|]. split.
  - intros Htrue. apply (cheap_check_moves n); [done..|]. by apply Hcheap.
  - intros Hmoves. destruct b; [done|]. exfalso.
    apply (blocked_board_fixed n board Hsq); [|done].
    intros Hc. by apply Hcheap in Hc.
Qed.

Lemma can_move_iff_some_move_changes_witness :
  ∃ b, can_move [[2; 4]; [8; 4]]%Z = Some b
       ∧ (b = true ↔ cheap_check [[2; 4]; [8; 4]]%Z)
       ∧ (b = true ↔ some_move_changes [[2; 4]; [8; 4]]%Z).
Proof.
  apply (can_move_iff_some_move_changes 2 [[2; 4]; [8; 4]]%Z).
  - split; [reflexivity|]. repeat constructor.
  - exists 0, 0, 2%Z. split; [reflexivity|lia].
Defined.

(** C2: [compress] makes one pass from the left in which a value just
    created is not merged again.  Run with its loop as written it returns
    [([4,0,0,0], 4)] on [[2,2,0,0]], [([4,2,0,0], 4)] on [[2,2,2,0]] (and so
    not a row [[4,4,0,0]]), and [([2,4,0,0], 0)] on [[0,2,0,4]].  In general
    the loop ends on every line with the result of the pass, which is: the
    zeros are taken out first and put back at the end; when the first two
    tiles are equal they become one tile of twice the value, which is final
    and is followed by the pass on the tiles after them, even when the next
    tile equals the doubled one; when they differ the first tile is final
    and the pass goes on from the second.  Every value a merge creates is a
    tile of the returned line. *)
Theorem compress_scenarios :
  compress_while [2; 2; 0; 0]%Z = Some ([4; 0; 0; 0]%Z, 4%Z)
  ∧ compress_while [2; 2; 2; 0]%Z = Some ([4; 2; 0; 0]%Z, 4%Z)
  ∧ (compress [2; 2; 2; 0]%Z).1 ≠ [4; 4; 0; 0]%Z
  ∧ compress_while [0; 2; 0; 4]%Z = Some ([2; 4; 0; 0]%Z, 0%Z)
  ∧ (∀ row, compress_while row = Some (compress row))
  ∧ (∀ row,
       compress row
       = ((compress (filter (λ num, num ≠ 0%Z) row)).1
            ++ replicate
                 (length row - length (filter (λ num, num ≠ 0%Z) row)) 0%Z,
          (compress (filter (λ num, num ≠ 0%Z) row)).2))
  ∧ (∀ a rest,
       a ≠ 0%Z → Forall (λ v, v ≠ 0%Z) rest →
       compress (a :: a :: rest)
       = ((a * 2)%Z :: (compress rest).1 ++ [0%Z],
          (a * 2 + (compress rest).2)%Z))
  ∧ (∀ a b rest,
       a ≠ 0%Z → b ≠ 0%Z → a ≠ b → Forall (λ v, v ≠ 0%Z) rest →
       compress (a :: b :: rest)
       = (a :: (compress (b :: rest)).1, (compress (b :: rest)).2))
  ∧ (∀ a, a ≠ 0%Z → compress [a] = ([a], 0%Z))
  ∧ compress [] = ([], 0%Z)
  ∧ (∀ row w,
       compress_created row = Some (merge_created (filter (λ num, num ≠ 0%Z) row))
       ∧ (w ∈ merge_created (filter (λ num, num ≠ 0%Z) row) →
          w ∈ (compress row).1)).
Proof.
  split; [reflexivity|]. split; [reflexivity|]. split; [by intros [=]|].
  split; [reflexivity|]. split; [apply compress_while_compress|].
  split; [apply compress_compaction|]. split; [apply compress_pair|].
  split; [apply compress_keep|]. split.
  { intros a Ha. unfold compress. by rewrite filter_cons_True. }
  split; [reflexivity|].
  intros row w. split; [apply compress_created_spec|].
  intros Hw. unfold compress. cbn [fst]. apply elem_of_app. left.
  by apply merge_created_kept.
Qed.

Lemma compress_scenarios_witness :
  compress [2; 2; 4; 0]%Z = ([4; 4; 0; 0]%Z, 4%Z)
  ∧ compress [2; 2; 4]%Z
    = ((2 * 2)%Z :: (compress [4]%Z).1 ++ [0%Z], (2 * 2 + (compress [4]%Z).2)%Z)
  ∧ compress [2; 4; 4]%Z
    = (2%Z :: (compress [4; 4]%Z).1, (compress [4; 4]%Z).2).
Proof.
  pose proof compress_scenarios
    as (_ & _ & _ & _ & _ & Hzeros & Hpair & Hkeep & _).
  split; [|split].
  - rewrite (Hzeros [2; 2; 4; 0]%Z). reflexivity.
  - apply (Hpair 2%Z [4%Z]); [lia|]. repeat constructor; lia.
  - apply (Hkeep 2%Z 4%Z [4%Z]); [lia|lia|lia|]. repeat constructor; lia.
Defined.

(** C3: for every line, [compress] (whose loop ends) returns a line of the
    same length in which every tile comes before every zero; its score is
    the sum of the values the merges of the pass create (the log of the
    loop), each a tile of the returned line and the double [v + v] of a
    tile [v] of the input, one tile fewer per merge; and the score is not
    negative on a line of the data model (no negative tile). *)
Theorem compress_invariants (row : Row) :
  compress_while row = Some (compress row)
  ∧ compress_created row
    = Some (merge_created (filter (λ num, num ≠ 0%Z) row))
  ∧ length (compress row).1 = length row
  ∧ (∀ i j v, (compress row).1 !! i = Some 0%Z →
              (compress row).1 !! j = Some v → v ≠ 0%Z → j < i)
  ∧ (compress row).2 = sum_row (merge_created (filter (λ num, num ≠ 0%Z) row))
  ∧ (∀ w, w ∈ merge_created (filter (λ num, num ≠ 0%Z) row) →
          w ∈ (compress row).1 ∧ ∃ v, v ∈ row ∧ v ≠ 0%Z ∧ w = (v + v)%Z)
  ∧ length (filter (λ num, num ≠ 0%Z) (compress row).1)
    + length (merge_created (filter (λ num, num ≠ 0%Z) row))
    = length (filter (λ num, num ≠ 0%Z) row)
  ∧ (Forall (λ v, 0 ≤ v)%Z row → (0 ≤ (compress row).2)%Z).
Proof.
  split; [apply compress_while_compress|].
  split; [apply compress_created_spec|].
  split; [apply length_compress|].
  destruct (compress_shape row) as (merged & k & Heq & Hmerged & Hnz & Hlen).
  split; [|split; [|split; [|split]]].
  - rewrite Heq. intros i j v Hi Hj Hv.
    destruct (decide (i < length merged)) as [Hlt|Hge].
    { rewrite lookup_app_l in Hi by done. rewrite Forall_forall in Hnz.
      destruct (Hnz 0%Z); [by eapply list_elem_of_lookup_2|done]. }
    destruct (decide (j < length merged)) as [|Hjge]; [lia|].
    rewrite lookup_app_r in Hj by lia.
    apply lookup_replicate in Hj as [-> _]. done.
  - unfold compress. cbn [snd]. apply merge_gain_created.
  - intros w Hw. split.
    { rewrite Heq, Hmerged. apply elem_of_app. left. by apply merge_created_kept. }
    destruct (merge_created_double _ _ Hw) as (v & Hv & ->).
    apply list_elem_of_filter in Hv as [Hvnz Hv]. eauto.
  - rewrite Heq, filter_app, (filter_nonzero_id merged) by done.
    assert (filter (λ num, num ≠ 0%Z) (replicate k 0%Z) = []) as ->.
    { clear. induction k as [|k IH]; [done|]. simpl.
      by rewrite filter_cons_False by (by intros []). }
    rewrite app_nil_r, Hmerged. apply merge_row_created_length.
  - intros Hpos. unfold compress. cbn [snd]. apply merge_gain_nonneg.
    apply Forall_forall. intros v Hv. apply list_elem_of_filter in Hv as [_ Hv].
    rewrite Forall_forall in Hpos. by apply Hpos.
Qed.

Lemma compress_invariants_witness :
  (0 ≤ (compress [2; 2; 4; 0; 4]%Z).2)%Z.
Proof.
  apply (compress_invariants [2; 2; 4; 0; 4]%Z).
  repeat constructor; lia.
Defined.

(** C4: for every board (square, as the boards of the game are) and each
    of the four movers, the tiles of the board the mover returns add up to
    what the tiles of its input add up to. *)
Theorem move_preserves_sum (n : nat) (board : Board) (d : Direction) :
  is_square n board →
  board_sum (move_functions d board).1 = board_sum board.
Proof.
  intros Hsq. destruct d; cbn [move_functions].
  - by apply (move_up_sum n).
  - by apply (move_down_sum n).
  - apply move_left_sum.
  - apply move_right_sum.
Qed.

Lemma move_preserves_sum_witness :
  board_sum (move_functions Up [[2; 2]; [2; 0]]%Z).1
  = board_sum [[2; 2]; [2; 0]]%Z.
Proof.
  apply (move_preserves_sum 2 [[2; 2]; [2; 0]]%Z Up).
  split; [reflexivity|]. repeat constructor.
Defined.

(** C5: for every board, [move_right] is reversing each row, [move_left],
    reversing each row of the result, with the score of that [move_left];
    [move_up] is [transpose], [move_left], [transpose], and [move_down] is
    [transpose], [move_right], [transpose], each with the score of the
    inner move; so [move_down] is [move_left] between a transposition with
    a reversal of the rows and its undoing. *)
Theorem orientation_symmetry (board : Board) :
  (move_right board).1 = reverse_rows (move_left (reverse_rows board)).1
  ∧ (move_right board).2 = (move_left (reverse_rows board)).2
  ∧ (move_up board).1 = transpose (move_left (transpose board)).1
  ∧ (move_up board).2 = (move_left (transpose board)).2
  ∧ (move_down board).1 = transpose (move_right (transpose board)).1
  ∧ (move_down board).2 = (move_right (transpose board)).2
  ∧ move_down board
    = (transpose
         (reverse_rows (move_left (reverse_rows (transpose board))).1),
       (move_left (reverse_rows (transpose board))).2).
Proof.
  unfold move_up, move_down.
  destruct (move_left (transpose board)).
  unfold move_right.
  destruct (move_left (reverse_rows board)),
    (move_left (reverse_rows (transpose board))).
  by repeat split.
Qed.

(** C6: when the mover [make_move] is given returns a board equal to the
    board of the session, the call raises nothing and leaves the session
    exactly as it was: same board, same score, same win flag, no draw
    from the generator (no tile spawned), nothing shown.  In particular,
    whatever a first call did, a second call whose mover does not change
    the board it finds leaves the session as the first call left it. *)
Theorem rejected_move_changes_nothing
    (move_function : Board → Board * Z) (response : bool) (self : Game2048.t) :
  (move_function (Game2048.board self)).1 = Game2048.board self →
  Game2048.make_move move_function response self = Some (self, [])
  ∧ ∀ (first : Board → Board * Z) (response0 : bool) (before : Game2048.t)
      (shown : list Event),
      Game2048.make_move first response0 before = Some (self, shown) →
      (Game2048.make_move first response0 before
         ≫= λ '(after, _), Game2048.make_move move_function response after)
      = Some (self, []).
Proof.
  intros Hsame.
  assert (Hreject : Game2048.make_move move_function response self = Some (self, [])).
  { unfold Game2048.make_move.
    destruct (move_function (Game2048.board self)) as [new_board gained].
    cbn [fst] in Hsame. subst new_board. unfold boards_equal.
    by rewrite bool_decide_eq_true_2. }
  split; [done|]. intros first response0 before shown ->.
  by cbn [mbind option_bind].
Qed.

Lemma rejected_move_changes_nothing_witness :
  let self := Game2048.mk 2 [[2; 0]; [4; 0]]%Z 0 false
                (mkRandom (λ _, 0) (λ _, true) 0 0) in
  Game2048.make_move move_left true self = Some (self, []).
Proof.
  intros self.
  apply (rejected_move_changes_nothing move_left true self).
  reflexivity.
Defined.



(** C8, as stated, fails: on the board [[r, r]] with [r = [0, 0]], one row
    object at both positions, which denotes the square grid
    [[[0,0],[0,0]]] with four empty cells, the deep copy keeps the sharing
    and the one write shows in both rows: [add_random_tile] returns
    [[[2,0],[2,0]]], which differs from its input at two cells. *)
Lemma add_random_tile_shared_rows_counterexample :
  board_of (mkObjBoard [[0; 0]]%Z [0; 0]) = Some [[0; 0]; [0; 0]]%Z
  ∧ is_square 2 [[0; 0]; [0; 0]]%Z
  ∧ ∃ b' g',
      add_random_tile_obj (mkObjBoard [[0; 0]]%Z [0; 0])
        (mkRandom (λ _, 0) (λ _, true) 0 0) = Some (b', g')
      ∧ board_of b' = Some [[2; 0]; [2; 0]]%Z
      ∧ ¬ ∃ i j, ∀ i' j', (i', j') ≠ (i, j) →
                 cell [[2; 0]; [2; 0]]%Z i' j' = cell [[0; 0]; [0; 0]]%Z i' j'.
Proof.
  split; [reflexivity|]. split; [split; [reflexivity|repeat constructor]|].
  eexists _, _. split; [reflexivity|]. split; [reflexivity|].
  intros (i & j & Hframe).
  destruct (decide ((0, 0) = (i, j))) as [Heq|Hne].
  - injection Heq as <- <-. by specialize (Hframe 1 0 ltac:(congruence)).
  - by specialize (Hframe 0 0 Hne).
Qed.

(** C8, amended: for every square board whose rows are distinct list
    objects (as are the rows of every board this program builds) and every
    state of the generator, [add_random_tile] raises nothing and returns a
    board of the same size whose rows are distinct objects again; if the
    input has an empty cell, one cell that held 0 holds 2 or 4 and every
    other cell is as it was; if it has none, the board is returned as it
    was, with nothing drawn. *)
Theorem add_random_tile_frame (n : nat) (b : ObjBoard) (board : Board)
    (g : Random) :
  NoDup (row_refs b) → board_of b = Some board → is_square n board →
  ∃ b' board' g',
    add_random_tile_obj b g = Some (b', g')
    ∧ board_of b' = Some board'
    ∧ NoDup (row_refs b')
    ∧ is_square n board'
    ∧ ((∀ i j, cell board i j ≠ Some 0%Z) → board' = board ∧ g' = g)
    ∧ ((∃ i j, cell board i j = Some 0%Z) →
         ∃ i j v, cell board i j = Some 0%Z ∧ (v = 2%Z ∨ v = 4%Z)
           ∧ cell board' i j = Some v
           ∧ ∀ i' j', (i', j') ≠ (i, j) → cell board' i' j' = cell board i' j').
Proof.
  intros Hnodup Hboard Hsq.
  destruct (add_random_tile_spec n n board g Hsq)
    as (board' & g' & Hadd & Hsq' & Hfull & Hspawn).
  pose proof (add_random_tile_obj_distinct b board g Hnodup Hboard) as Hobj.
  rewrite Hadd in Hobj. destruct Hobj as (b' & Hobj & Hboard' & Hrefs).
  exists b', board', g'. rewrite Hrefs.
  split; [done|]. split; [done|]. split; [done|]. split; [exact Hsq'|].
  split; [exact Hfull|exact Hspawn].
Qed.

Lemma add_random_tile_frame_witness :
  ∃ b' board' g',
    add_random_tile_obj (mkObjBoard [[2; 0]; [0; 4]]%Z [0; 1])
      (mkRandom (λ _, 1) (λ _, false) 0 0) = Some (b', g')
    ∧ board_of b' = Some board'
    ∧ NoDup (row_refs b')
    ∧ is_square 2 board'
    ∧ ((∀ i j, cell [[2; 0]; [0; 4]]%Z i j ≠ Some 0%Z) →
       board' = [[2; 0]; [0; 4]]%Z ∧ g' = mkRandom (λ _, 1) (λ _, false) 0 0)
    ∧ ((∃ i j, cell [[2; 0]; [0; 4]]%Z i j = Some 0%Z) →
         ∃ i j v, cell [[2; 0]; [0; 4]]%Z i j = Some 0%Z ∧ (v = 2%Z ∨ v = 4%Z)
           ∧ cell board' i j = Some v
           ∧ ∀ i' j', (i', j') ≠ (i, j) →
                      cell board' i' j' = cell [[2; 0]; [0; 4]]%Z i' j').
Proof.
  apply (add_random_tile_frame 2 (mkObjBoard [[2; 0]; [0; 4]]%Z [0; 1])
           [[2; 0]; [0; 4]]%Z).
  - apply NoDup_cons. split; [|apply NoDup_singleton].
    intros Hin. apply list_elem_of_singleton in Hin. discriminate.
  - reflexivity.
  - split; [reflexivity|]. repeat constructor.
Defined.

(** C9, as stated, fails: for the size 1, which is below 2, [create_board]
    returns the board [[[0]]] where the specification has it fail with
    [InvalidSizeError]. *)
Lemma create_board_size_one_counterexample :
  create_board_outcome 1 = Returned [[0%Z]]
  ∧ createEmptyBoard_spec 1 = InvalidSizeError
  ∧ create_board_outcome 1 ≠ createEmptyBoard_spec 1.
Proof. by repeat split. Qed.

(** C9, amended: [create_board(size)] returns for every size, rejecting
    none: the result is the all-zero grid of [size] rows and [size]
    columns, which for a size of 0 or less is the grid without rows; from
    the size 2 on it is the grid the specification asks for. *)
Theorem create_board_total (size : Z) :
  create_board_outcome size = Returned (create_board size)
  ∧ is_square (Z.to_nat size) (create_board size)
  ∧ Forall (Forall (λ v, v = 0%Z)) (create_board size)
  ∧ ((2 ≤ size)%Z → create_board_outcome size = createEmptyBoard_spec size).
Proof.
  split; [done|]. split; [apply create_board_square|]. split.
  - unfold create_board. apply Forall_replicate. by apply Forall_replicate.
  - intros Hsize. unfold createEmptyBoard_spec, create_board_outcome.
    by rewrite bool_decide_eq_false_2 by lia.
Qed.

Lemma create_board_total_witness :
  create_board_outcome 4 = createEmptyBoard_spec 4.
Proof. apply (create_board_total 4). lia. Defined.

(** C10: for every square board of [n] rows, each of [move_left],
    [move_right], [move_up] and [move_down] returns a square board of [n]
    rows, and so do [transpose] and [reverse_rows]. *)
Theorem moves_preserve_shape (n : nat) (board : Board) :
  is_square n board →
  (∀ d, is_square n (move_functions d board).1)
  ∧ is_square n (transpose board)
  ∧ is_square n (reverse_rows board).
Proof.
  intros Hsq. split; [|split].
  - intros d. by apply move_functions_square.
  - by apply transpose_square.
  - by apply reverse_rows_rect.
Qed.

Lemma moves_preserve_shape_witness :
  (∀ d, is_square 2 (move_functions d [[2; 2]; [0; 4]]%Z).1)
  ∧ is_square 2 (transpose [[2; 2]; [0; 4]]%Z)
  ∧ is_square 2 (reverse_rows [[2; 2]; [0; 4]]%Z).
Proof.
  apply (moves_preserve_shape 2 [[2; 2]; [0; 4]]%Z).
  split; [reflexivity|]. repeat constructor.
Defined.

(** * Further properties of the code *)

(** ** Lines that do not move *)

Lemma filter_nonzero_zeros (k : nat) :
  filter (λ num, num ≠ 0%Z) (replicate k 0%Z) = [].
Proof.
  induction k as [|k IH]; [done|]. simpl.
  by rewrite filter_cons_False by (by intros []).
Qed.

Lemma filter_nonzero_padded (tiles : Row) (k : nat) :
  Forall (λ v, v ≠ 0%Z) tiles →
  filter (λ num, num ≠ 0%Z) (tiles ++ replicate k 0%Z) = tiles.
Proof.
  intros Hnz.
  by rewrite filter_app, filter_nonzero_id, filter_nonzero_zeros, app_nil_r.
Qed.

Lemma merge_row_same_length (l : Row) :
  length (merge_row l) = length l → adjacent_equalb l = false.
Proof.
  intros Hlen. destruct (adjacent_equalb l) eqn:Hadj; [|done].
  apply merge_row_shrinks in Hadj. lia.
Qed.

Lemma merge_gain_no_merge (l : Row) : adjacent_equalb l = false → merge_gain l = 0%Z.
Proof. merge_cases l; intros Hadj; try done. by apply IH. Qed.

(** The lines [compress] returns as they are: tiles without two equal
    neighbours, then zeros. *)
Lemma compress_fixed_shape (row : Row) :
  (compress row).1 = row →
  ∃ (tiles : Row) (k : nat),
    row = tiles ++ replicate k 0%Z
    ∧ Forall (λ v, v ≠ 0%Z) tiles ∧ adjacent_equalb tiles = false.
Proof.
  intros Hfix.
  destruct (compress_shape row) as (merged & k & Heq & Hmerged & Hnz & Hlen).
  rewrite Hfix in Heq. exists merged, k. split; [done|]. split; [done|].
  rewrite Heq, filter_nonzero_padded in Hmerged by done.
  apply merge_row_same_length. by rewrite <- Hmerged.
Qed.

Lemma compress_padded (tiles : Row) (k : nat) :
  Forall (λ v, v ≠ 0%Z) tiles → adjacent_equalb tiles = false →
  compress (tiles ++ replicate k 0%Z) = (tiles ++ replicate k 0%Z, 0%Z).
Proof.
  intros Hnz Hadj. unfold compress.
  rewrite filter_nonzero_padded, merge_row_fixed, merge_gain_no_merge by done.
  rewrite length_app, length_replicate.
  by replace (length tiles + k - length tiles) with k by lia.
Qed.

Lemma compress_fixed_gain (row : Row) :
  (compress row).1 = row → (compress row).2 = 0%Z.
Proof.
  intros Hfix.
  destruct (compress_fixed_shape row Hfix) as (tiles & k & -> & Hnz & Hadj).
  by rewrite compress_padded.
Qed.

Lemma sum_row_zero (l : Row) : Forall (λ v, v = 0%Z) l → sum_row l = 0%Z.
Proof. induction 1 as [|v l -> _ IH]; [done|]. simpl in *. lia. Qed.

Lemma move_left_fixed_score (board : Board) :
  (move_left board).1 = board → (move_left board).2 = 0%Z.
Proof.
  intros Hfix. apply move_left_fixed in Hfix.
  rewrite move_left_map. cbn [snd]. apply sum_row_zero, Forall_fmap.
  eapply Forall_impl; [exact Hfix|]. intros row Hrow. by apply compress_fixed_gain.
Qed.

Lemma move_right_fixed_score (board : Board) :
  (move_right board).1 = board → (move_right board).2 = 0%Z.
Proof.
  intros Hfix. apply move_right_fixed in Hfix.
  rewrite move_right_map. cbn [snd]. apply sum_row_zero, Forall_fmap.
  eapply Forall_impl; [exact Hfix|]. intros row Hrow. by apply compress_fixed_gain.
Qed.

Lemma move_up_snd (board : Board) :
  (move_up board).2 = (move_left (transpose board)).2.
Proof. unfold move_up. by destruct (move_left (transpose board)). Qed.

Lemma move_down_snd (board : Board) :
  (move_down board).2 = (move_right (transpose board)).2.
Proof. unfold move_down. by destruct (move_right (transpose board)). Qed.

Lemma move_up_fixed_inner (n : nat) (board : Board) :
  is_square n board → (move_up board).1 = board →
  (move_left (transpose board)).1 = transpose board.
Proof.
  intros Hsq Hfix. rewrite move_up_fst in Hfix.
  apply (transpose_inj_square n); [|done..].
  by apply move_left_rect, transpose_square.
Qed.

Lemma move_down_fixed_inner (n : nat) (board : Board) :
  is_square n board → (move_down board).1 = board →
  (move_right (transpose board)).1 = transpose board.
Proof.
  intros Hsq Hfix. rewrite move_down_fst in Hfix.
  apply (transpose_inj_square n); [|done..].
  by apply move_right_rect, transpose_square.
Qed.

(** X1: a line [compress] returns unchanged is exactly a line of tiles
    without two equal neighbours followed by zeros, and it scores nothing. *)
Theorem compress_fixed_iff (row : Row) :
  ((compress row).1 = row
   ↔ ∃ (tiles : Row) (k : nat),
       row = tiles ++ replicate k 0%Z
       ∧ Forall (λ v, v ≠ 0%Z) tiles ∧ adjacent_equalb tiles = false)
  ∧ ((compress row).1 = row → (compress row).2 = 0%Z).
Proof.
  split; [split|].
  - apply compress_fixed_shape.
  - intros (tiles & k & -> & Hnz & Hadj). by rewrite compress_padded.
  - apply compress_fixed_gain.
Qed.

Lemma compress_fixed_iff_witness : (compress [2; 4; 0]%Z).2 = 0%Z.
Proof. apply (proj2 (compress_fixed_iff [2; 4; 0]%Z)). reflexivity. Defined.

(** X2: a move that returns a square board unchanged scores nothing, in
    each of the four directions: whenever [make_move] rejects a move, no
    score was lost. *)
Theorem unchanged_move_scores_nothing (n : nat) (board : Board) (d : Direction) :
  is_square n board →
  (move_functions d board).1 = board → (move_functions d board).2 = 0%Z.
Proof.
  intros Hsq Hfix. destruct d; cbn [move_functions] in *.
  - rewrite move_up_snd. by apply move_left_fixed_score, (move_up_fixed_inner n).
  - rewrite move_down_snd. by apply move_right_fixed_score, (move_down_fixed_inner n).
  - by apply move_left_fixed_score.
  - by apply move_right_fixed_score.
Qed.

Lemma unchanged_move_scores_nothing_witness :
  (move_functions Down [[2; 0]; [4; 8]]%Z).2 = 0%Z.
Proof.
  apply (unchanged_move_scores_nothing 2 [[2; 0]; [4; 8]]%Z Down).
  - split; [reflexivity|]. repeat constructor.
  - reflexivity.
Defined.

(** ** The list of empty cells *)

Lemma mapM_fmap_total {X Y} (f : X → option Y) (g : X → Y) (xs : list X) :
  (∀ x, x ∈ xs → f x = Some (g x)) → mapM f xs = Some (g <$> xs).
Proof.
  induction xs as [|x xs IH]; intros Hfg; [done|].
  cbn [mapM]. rewrite Hfg by (by left). rewrite IH; [done|].
  intros y Hy. apply Hfg. by right.
Qed.

Lemma concat_filter_singletons {X Y} (P : Y → Prop) `{!∀ y, Decision (P y)}
    (h : X → Y) (xs : list X) :
  concat ((λ x, if bool_decide (P (h x)) then [h x] else []) <$> xs)
  = filter P (h <$> xs).
Proof.
  induction xs as [|x xs IH]; [done|].
  cbn [fmap list_fmap concat]. rewrite filter_cons.
  fold (fmap (M := list) h xs).
  fold (fmap (M := list) (λ x, if bool_decide (P (h x)) then [h x] else []) xs).
  rewrite IH. by destruct (decide (P (h x))) as [HP|HP];
    [rewrite bool_decide_eq_true_2|rewrite bool_decide_eq_false_2].
Qed.

Lemma filter_concat {Y} (P : Y → Prop) `{!∀ y, Decision (P y)} (ls : list (list Y)) :
  filter P (concat ls) = concat (filter P <$> ls).
Proof.
  induction ls as [|l ls IH]; [done|].
  cbn [concat fmap list_fmap]. by rewrite filter_app, IH.
Qed.

(** X3: on a rectangular board [get_empty_cells] raises nothing and
    returns the coordinates of the cells that hold 0, each once, in
    row-major order. *)
Theorem get_empty_cells_row_major (n m : nat) (board : Board) :
  is_rect n m board →
  get_empty_cells board
  = Some (filter (λ p, cell board p.1 p.2 = Some 0%Z) (row_major n m)).
Proof.
  intros Hrect. unfold get_empty_cells, row_major.
  destruct Hrect as [Hn Hm]. rewrite Hn.
  rewrite (mapM_fmap_total _
    (λ i, filter (λ p, cell board p.1 p.2 = Some 0%Z)
            ((λ j, (i, j)) <$> seq 0 m))).
  { cbn [fmap option_fmap option_map]. f_equal.
    by rewrite filter_concat, <- list_fmap_compose. }
  intros i Hi. apply elem_of_seq in Hi.
  destruct (lookup_lt_is_Some_2 board 0) as [row0 Hrow0]; [lia|].
  rewrite Hrow0. cbn [mbind option_bind].
  destruct (is_rect_lookup n m board 0 row0 (conj Hn Hm) Hrow0) as [_ ->].
  rewrite (mapM_fmap_total _
    (λ j, if bool_decide (cell board (i, j).1 (i, j).2 = Some 0%Z)
          then [(i, j)] else [])).
  { cbn [fmap option_fmap option_map]. f_equal.
    exact (concat_filter_singletons
             (λ p : nat * nat, cell board p.1 p.2 = Some 0%Z) (λ j, (i, j))
             (seq 0 m)). }
  intros j Hj. apply elem_of_seq in Hj. cbn [fst snd].
  destruct (is_rect_cell n m board i j (conj Hn Hm)) as [v Hv]; [lia..|].
  rewrite Hv. cbn [mbind option_bind]. f_equal.
  destruct (decide (v = 0%Z)) as [->|Hv0].
  - by rewrite !bool_decide_eq_true_2.
  - rewrite !bool_decide_eq_false_2; [done|congruence|done].
Qed.

Lemma get_empty_cells_row_major_witness :
  get_empty_cells [[2; 0; 0]; [0; 4; 0]]%Z = Some [(0, 1); (0, 2); (1, 0); (1, 2)].
Proof.
  rewrite (get_empty_cells_row_major 2 3 [[2; 0; 0]; [0; 4; 0]]%Z).
  - reflexivity.
  - split; [reflexivity|]. repeat constructor.
Defined.

Lemma get_empty_cells_cut (board : Board) (row0 : Row) :
  board !! 0 = Some row0 →
  get_empty_cells (take (length row0) <$> board) = get_empty_cells board.
Proof.
  intros Hrow0. unfold get_empty_cells. rewrite length_fmap. f_equal.
  apply Forall_mapM_ext, Forall_forall. intros i _.
  rewrite list_lookup_fmap, Hrow0. cbn [fmap option_fmap option_map].
  rewrite take_ge by done. cbn [mbind option_bind]. f_equal.
  apply Forall_mapM_ext, Forall_forall. intros j Hj. apply elem_of_seq in Hj.
  unfold cell. rewrite list_lookup_fmap.
  destruct (board !! i) as [row|]; [|done].
  cbn [fmap option_fmap option_map mbind option_bind].
  by rewrite lookup_take_lt by lia.
Qed.

(** X4: [get_empty_cells] raises [IndexError] exactly when some row is
    shorter than the first row; cells of a row beyond the length of the
    first row are not looked at: cutting every row at that length changes
    nothing. *)
Theorem get_empty_cells_raises_iff (board : Board) :
  (get_empty_cells board = None
   ↔ ∃ i row0 row, board !! 0 = Some row0 ∧ board !! i = Some row
                   ∧ length row < length row0)
  ∧ (∀ row0, board !! 0 = Some row0 →
       get_empty_cells (take (length row0) <$> board) = get_empty_cells board).
Proof.
  split; [|apply get_empty_cells_cut].
  unfold get_empty_cells. rewrite fmap_None, mapM_None, Exists_exists. split.
  - intros (i & Hi & Hnone). apply elem_of_seq in Hi.
    destruct (lookup_lt_is_Some_2 board 0) as [row0 Hrow0]; [lia|].
    destruct (lookup_lt_is_Some_2 board i) as [row Hrow]; [lia|].
    rewrite Hrow0 in Hnone. cbn [mbind option_bind] in Hnone.
    apply fmap_None, mapM_None, Exists_exists in Hnone as (j & Hj & Hnone).
    apply elem_of_seq in Hj. exists i, row0, row. split; [done|]. split; [done|].
    unfold cell in Hnone. rewrite Hrow in Hnone. cbn [mbind option_bind] in Hnone.
    destruct (row !! j) as [v|] eqn:Hv; [done|].
    apply lookup_ge_None in Hv. lia.
  - intros (i & row0 & row & Hrow0 & Hrow & Hlen).
    exists i. split; [apply elem_of_seq; apply lookup_lt_Some in Hrow; lia|].
    rewrite Hrow0. cbn [mbind option_bind].
    apply fmap_None, mapM_None, Exists_exists.
    exists (length row). split; [apply elem_of_seq; lia|].
    unfold cell. rewrite Hrow. cbn [mbind option_bind].
    by rewrite (lookup_ge_None_2 row (length row)) by lia.
Qed.

Lemma get_empty_cells_raises_iff_witness :
  get_empty_cells (take 1 <$> [[2]; [0; 0]]%Z) = get_empty_cells [[2]; [0; 0]]%Z.
Proof.
  apply (proj2 (get_empty_cells_raises_iff [[2]; [0; 0]]%Z) [2%Z]).
  reflexivity.
Defined.

(** ** More on [transpose] and [reverse_rows] *)

(** X5: on any board with at least one row, ragged or not, [transpose]
    has a row [j] exactly when every row of the board has a cell [j]: the
    result is cut at the shortest row.  That row lists the cells [j] of the
    rows, top to bottom. *)
Theorem transpose_cuts_at_shortest_row (board : Board) :
  board ≠ [] →
  (∀ j, is_Some (transpose board !! j)
        ↔ Forall (λ row : Row, j < length row) board)
  ∧ (∀ j col, transpose board !! j = Some col →
              length col = length board ∧ ∀ i, col !! i = cell board i j).
Proof.
  intros Hne. unfold transpose. split.
  - intros j. rewrite zip_star_lookup by done. rewrite mapM_is_Some.
    apply Forall_proper; [|done]. intros row. simpl.
    apply lookup_lt_is_Some.
  - intros j col Hcol. rewrite zip_star_lookup in Hcol by done. split.
    + symmetry. by eapply length_mapM.
    + intros i. by eapply mapM_column_lookup.
Qed.

Lemma transpose_cuts_at_shortest_row_witness :
  is_Some (transpose [[1; 2; 3]; [4; 5]]%Z !! 1)
  ∧ ¬ is_Some (transpose [[1; 2; 3]; [4; 5]]%Z !! 2).
Proof.
  pose proof (transpose_cuts_at_shortest_row [[1; 2; 3]; [4; 5]]%Z
                ltac:(discriminate)) as [Hrows _].
  split.
  - apply Hrows. repeat constructor.
  - intros Hsome. apply Hrows in Hsome.
    apply Forall_cons in Hsome as [_ Hsome].
    apply Forall_cons in Hsome as [Hlt _]. simpl in Hlt. lia.
Defined.

(** X6: [transpose] is its own inverse on a rectangular board with at
    least one row and one column, and on every square board; a board whose
    rows are empty is sent to the board without rows, which loses the
    number of rows. *)
Theorem transpose_round_trip (n m : nat) (board : Board) :
  is_rect n m board →
  (0 < n → 0 < m →
   is_rect m n (transpose board) ∧ transpose (transpose board) = board)
  ∧ (n = m → transpose (transpose board) = board)
  ∧ (m = 0 → transpose board = []).
Proof.
  intros Hrect. split; [|split].
  - intros Hn Hm. split.
    + apply transpose_rect; [done|]. by eapply is_rect_nonempty.
    + by apply (transpose_involutive n m).
  - intros ->. by apply (transpose_square_involutive m).
  - intros ->. destruct board as [|r rest]; [done|].
    apply nil_length_inv. by apply (zip_star_length n 0).
Qed.

Lemma transpose_round_trip_witness :
  is_rect 3 2 (transpose [[1; 2; 3]; [4; 5; 6]]%Z)
  ∧ transpose (transpose [[1; 2; 3]; [4; 5; 6]]%Z) = [[1; 2; 3]; [4; 5; 6]]%Z.
Proof.
  apply (transpose_round_trip 2 3 [[1; 2; 3]; [4; 5; 6]]%Z); [|lia|lia].
  split; [reflexivity|]. repeat constructor.
Defined.

Lemma reverse_rows_involutive (board : Board) :
  reverse_rows (reverse_rows board) = board.
Proof.
  unfold reverse_rows. rewrite <- list_fmap_compose.
  rewrite <- (list_fmap_id board) at 2. apply list_fmap_ext.
  intros _ row _. apply reverse_involutive.
Qed.

(** X7: reversing the rows twice gives the board back, and it exchanges
    left and right: moving the mirrored board to the left is the mirror of
    moving the board to the right, and the other way round, with the same
    score. *)
Theorem mirror_exchanges_left_right (board : Board) :
  reverse_rows (reverse_rows board) = board
  ∧ move_left (reverse_rows board)
    = (reverse_rows (move_right board).1, (move_right board).2)
  ∧ move_right (reverse_rows board)
    = (reverse_rows (move_left board).1, (move_left board).2).
Proof.
  split; [apply reverse_rows_involutive|]. unfold move_right.
  rewrite reverse_rows_involutive.
  destruct (move_left (reverse_rows board)) as [b1 s1],
    (move_left board) as [b2 s2].
  cbn [fst snd]. by rewrite reverse_rows_involutive.
Qed.

(** X8: on a square board, transposition exchanges left with up and right
    with down: moving the transposed board left is the transpose of moving
    the board up, and so on, with the same score. *)
Theorem transpose_exchanges_rows_columns (n : nat) (board : Board) :
  is_square n board →
  move_left (transpose board)
  = (transpose (move_up board).1, (move_up board).2)
  ∧ move_right (transpose board)
    = (transpose (move_down board).1, (move_down board).2)
  ∧ move_up (transpose board)
    = (transpose (move_left board).1, (move_left board).2)
  ∧ move_down (transpose board)
    = (transpose (move_right board).1, (move_right board).2).
Proof.
  intros Hsq.
  pose proof (move_left_rect n n _ (transpose_square n _ Hsq)) as Hl.
  pose proof (move_right_rect n n _ (transpose_square n _ Hsq)) as Hr.
  unfold move_up, move_down.
  rewrite (transpose_square_involutive n board Hsq).
  destruct (move_left (transpose board)) as [b1 s1],
    (move_right (transpose board)) as [b2 s2],
    (move_left board) as [b3 s3], (move_right board) as [b4 s4].
  cbn [fst snd] in *.
  by rewrite (transpose_square_involutive n b1), (transpose_square_involutive n b2).
Qed.

Lemma transpose_exchanges_rows_columns_witness :
  move_left (transpose [[2; 2]; [0; 4]]%Z)
  = (transpose (move_up [[2; 2]; [0; 4]]%Z).1, (move_up [[2; 2]; [0; 4]]%Z).2).
Proof.
  apply (transpose_exchanges_rows_columns 2 [[2; 2]; [0; 4]]%Z).
  split; [reflexivity|]. repeat constructor.
Defined.

(** ** Invariants of the cells *)

Lemma add_random_tile_cases (board board' : Board) (g g' : Random) :
  add_random_tile board g = Some (board', g') →
  (get_empty_cells board = Some [] ∧ board' = board ∧ g' = g)
  ∨ (∃ cells i j v row,
       get_empty_cells board = Some cells ∧ (i, j) ∈ cells
       ∧ (v = 2%Z ∨ v = 4%Z)
       ∧ board !! i = Some row ∧ j < length row
       ∧ board' = <[i := <[j := v]> row]> board).
Proof.
  unfold add_random_tile.
  destruct (get_empty_cells board) as [[|p cells]|] eqn:Hcells;
    cbn [mbind option_bind]; [|intros Hadd|done].
  { intros [= <- <-]. by left. }
  right. unfold random_choice in Hadd.
  destruct ((p :: cells) !! _) as [[i j]|] eqn:Hpick; [|done].
  cbn [mbind option_bind random_lt_09 picks coins n_picks n_coins] in Hadd.
  unfold set_cell in Hadd.
  destruct (board !! i) as [row|] eqn:Hrow; [|done].
  cbn [mbind option_bind] in Hadd.
  case_bool_decide as Hj; [|done]. cbn [mbind option_bind] in Hadd.
  injection Hadd as <- <-.
  exists (p :: cells), i, j, (if coins g (n_coins g) then 2%Z else 4%Z), row.
  split; [done|]. split; [by eapply list_elem_of_lookup_2|].
  split; [destruct (coins g (n_coins g)); auto|done].
Qed.

Section cell_invariant.

Variable P : Z → Prop.
Hypothesis P_zero : P 0%Z.
Hypothesis P_double : ∀ v, P v → P (v * 2)%Z.
Hypothesis P_two : P 2%Z.
Hypothesis P_four : P 4%Z.

Lemma merge_row_Forall (l : Row) : Forall P l → Forall P (merge_row l).
Proof.
  merge_cases l; intros Hl; try done.
  - inversion_clear Hl as [|? ? Ha Hrest]. inversion_clear Hrest.
    constructor; auto.
  - inversion_clear Hl. constructor; auto.
Qed.

Lemma compress_Forall (row : Row) : Forall P row → Forall P (compress row).1.
Proof.
  intros Hrow. unfold compress. cbn [fst]. apply Forall_app. split.
  - apply merge_row_Forall, Forall_forall. intros v Hv.
    apply list_elem_of_filter in Hv as [_ Hv].
    rewrite Forall_forall in Hrow. by apply Hrow.
  - by apply Forall_replicate.
Qed.

Lemma move_left_Forall (board : Board) :
  Forall (Forall P) board → Forall (Forall P) (move_left board).1.
Proof.
  intros Hb. rewrite move_left_map. cbn [fst]. apply Forall_fmap.
  eapply Forall_impl; [exact Hb|]. intros row. apply compress_Forall.
Qed.

Lemma reverse_rows_Forall (board : Board) :
  Forall (Forall P) board → Forall (Forall P) (reverse_rows board).
Proof.
  intros Hb. apply Forall_fmap. eapply Forall_impl; [exact Hb|].
  intros row. apply Forall_reverse.
Qed.

Lemma move_right_Forall (board : Board) :
  Forall (Forall P) board → Forall (Forall P) (move_right board).1.
Proof.
  intros Hb. unfold move_right.
  pose proof (move_left_Forall _ (reverse_rows_Forall _ Hb)) as Hl.
  destruct (move_left (reverse_rows board)). by apply reverse_rows_Forall.
Qed.

Lemma zip_cons_Forall (r : Row) (cols : Board) :
  Forall P r → Forall (Forall P) cols → Forall (Forall P) (zip_with cons r cols).
Proof.
  intros Hr. revert cols. induction Hr as [|x r Hx _ IH]; intros cols Hcols; [done|].
  destruct Hcols as [|col cols Hcol Hcols]; [done|].
  cbn [zip_with]. constructor; [by constructor|by apply IH].
Qed.

Lemma transpose_Forall (board : Board) :
  Forall (Forall P) board → Forall (Forall P) (transpose board).
Proof.
  unfold transpose. induction board as [|r [|r' rest] IH]; intros Hb; [done| |].
  - cbn [zip_star]. inversion_clear Hb as [|? ? Hr _].
    apply Forall_fmap. eapply Forall_impl; [exact Hr|].
    intros x Hx. by constructor.
  - change (zip_star (r :: r' :: rest))
      with (zip_with cons r (zip_star (r' :: rest))).
    inversion_clear Hb. apply zip_cons_Forall; auto.
Qed.

Lemma move_functions_Forall (d : Direction) (board : Board) :
  Forall (Forall P) board → Forall (Forall P) (move_functions d board).1.
Proof.
  intros Hb. destruct d; cbn [move_functions].
  - rewrite move_up_fst. by apply transpose_Forall, move_left_Forall, transpose_Forall.
  - rewrite move_down_fst. by apply transpose_Forall, move_right_Forall, transpose_Forall.
  - by apply move_left_Forall.
  - by apply move_right_Forall.
Qed.

Lemma add_random_tile_Forall (board board' : Board) (g g' : Random) :
  add_random_tile board g = Some (board', g') →
  Forall (Forall P) board → Forall (Forall P) board'.
Proof.
  intros Hadd Hb.
  destruct (add_random_tile_cases _ _ _ _ Hadd)
    as [(_ & -> & _)|(cells & i & j & v & row & _ & _ & Hv & Hrow & _ & ->)];
    [done|].
  apply Forall_insert; [done|]. apply Forall_insert.
  - by eapply (Forall_lookup_1 (Forall P)).
  - by destruct Hv as [->| ->].
Qed.

Lemma create_board_Forall (size : Z) : Forall (Forall P) (create_board size).
Proof. unfold create_board. by apply Forall_replicate, Forall_replicate. Qed.

Lemma initialize_game_Forall (size : Z) (g g' : Random) (board : Board) :
  initialize_game size g = Some (board, g') → Forall (Forall P) board.
Proof.
  unfold initialize_game.
  destruct (add_random_tile (create_board size) g) as [[b1 g1]|] eqn:H1; [|done].
  cbn [mbind option_bind].
  destruct (add_random_tile b1 g1) as [[b2 g2]|] eqn:H2; [|done].
  cbn [mbind option_bind]. intros [= <- <-].
  eapply add_random_tile_Forall; [exact H2|].
  eapply add_random_tile_Forall; [exact H1|]. apply create_board_Forall.
Qed.

Lemma restart_game_Forall (self self' : Game2048.t) :
  Game2048.restart_game self = Some self' →
  Forall (Forall P) (Game2048.board self').
Proof.
  unfold Game2048.restart_game.
  destruct (initialize_game _ _) as [[b g]|] eqn:Hinit; [|done].
  cbn [mbind option_bind]. intros [= <-]. cbn.
  by eapply initialize_game_Forall.
Qed.

Lemma make_move_Forall (d : Direction) (response : bool)
    (self self' : Game2048.t) (shown : list Event) :
  Game2048.make_move (move_functions d) response self = Some (self', shown) →
  Forall (Forall P) (Game2048.board self) →
  Forall (Forall P) (Game2048.board self').
Proof.
  intros Hmove Hb. unfold Game2048.make_move in Hmove.
  pose proof (move_functions_Forall d _ Hb) as Hmoved.
  destruct (move_functions d (Game2048.board self)) as [new_board gained].
  cbn [fst] in Hmoved.
  destruct (negb (boards_equal _ _)); [|by injection Hmove as <- <-].
  destruct (add_random_tile _ _) as [[spawned g]|] eqn:Hadd; [|done].
  pose proof (add_random_tile_Forall _ _ _ _ Hadd Hmoved) as Hspawned.
  cbn [mbind option_bind Game2048.game_won Game2048.board Game2048.size
       Game2048.score Game2048.random] in Hmove.
  destruct (negb (Game2048.game_won self) && has_won spawned 2048).
  - destruct response; cbn [negb] in Hmove; [by injection Hmove as <- <-|].
    destruct (Game2048.restart_game _) as [self3|] eqn:Hr; [|done].
    cbn [mbind option_bind] in Hmove. injection Hmove as <- <-.
    by eapply restart_game_Forall.
  - destruct (game_over spawned) as [[|]|]; cbn [mbind option_bind] in Hmove;
      [|by injection Hmove as <- <-|done].
    destruct response; [|by injection Hmove as <- <-].
    destruct (Game2048.restart_game _) as [self3|] eqn:Hr; [|done].
    cbn [mbind option_bind] in Hmove. injection Hmove as <- <-.
    by eapply restart_game_Forall.
Qed.

Lemma run_Forall (actions : list Game2048.Action)
    (self self' : Game2048.t) (shown : list Event) :
  Game2048.run actions self = Some (self', shown) →
  Forall (Forall P) (Game2048.board self) →
  Forall (Forall P) (Game2048.board self').
Proof.
  revert self shown. induction actions as [|a actions IH]; intros self shown.
  - by intros [= <- <-].
  - cbn [Game2048.run].
    destruct (Game2048.step a self) as [[s1 shown1]|] eqn:Hstep; [|done].
    cbn [mbind option_bind].
    destruct (Game2048.run actions s1) as [[s2 shown2]|] eqn:Hrun; [|done].
    cbn [mbind option_bind]. intros [= <- <-] Hb.
    apply (IH _ _ Hrun). destruct a as [d response|]; cbn [Game2048.step] in Hstep.
    + by eapply make_move_Forall.
    + destruct (Game2048.restart_game self) as [s'|] eqn:Hr; [|done].
      cbn [mbind option_bind] in Hstep. injection Hstep as <- <-.
      by eapply restart_game_Forall.
Qed.

End cell_invariant.

Lemma is_tile_double (v : Z) : is_tile v → is_tile (v * 2)%Z.
Proof.
  intros [->|[k ->]]; [by left|]. right. exists (S k).
  rewrite (Nat2Z.inj_succ (S k)), Z.pow_succ_r by lia. lia.
Qed.

Lemma is_tile_two : is_tile 2%Z.
Proof. right. by exists 0. Qed.

Lemma is_tile_four : is_tile 4%Z.
Proof. right. by exists 1. Qed.

(** X9: the cells stay what the game makes them, 0 or a power of two from
    2 on: each of the four movers keeps this (on any board), so does
    [add_random_tile], a fresh board of [initialize_game] has it, and so it
    holds after any run of key presses and "New Game" clicks that starts
    from such a board. *)
Theorem cells_stay_powers_of_two :
  (∀ d board, tiles_ok board → tiles_ok (move_functions d board).1)
  ∧ (∀ board g board' g',
       add_random_tile board g = Some (board', g') →
       tiles_ok board → tiles_ok board')
  ∧ (∀ size g board g', initialize_game size g = Some (board, g') → tiles_ok board)
  ∧ (∀ actions self self' shown,
       Game2048.run actions self = Some (self', shown) →
       tiles_ok (Game2048.board self) → tiles_ok (Game2048.board self')).
Proof.
  split; [|split; [|split]].
  - intros d board. apply move_functions_Forall; [by left|apply is_tile_double].
  - intros board g board' g'. apply add_random_tile_Forall;
      [apply is_tile_two|apply is_tile_four].
  - intros size g board g'. apply initialize_game_Forall;
      [by left|apply is_tile_two|apply is_tile_four].
  - intros actions self self' shown. apply run_Forall;
      [by left|apply is_tile_double|apply is_tile_two|apply is_tile_four].
Qed.

Lemma cells_stay_powers_of_two_witness :
  tiles_ok (move_functions Left [[2; 2]; [4; 0]]%Z).1.
Proof.
  apply (proj1 cells_stay_powers_of_two Left [[2; 2]; [4; 0]]%Z).
  pose proof is_tile_two. pose proof is_tile_four.
  assert (is_tile 0%Z) by (by left).
  unfold tiles_ok.
  repeat first [apply Forall_nil_2 | apply Forall_cons_2]; assumption.
Defined.

(** ** The score *)

Lemma merge_gain_le_sum (l : Row) :
  Forall (λ v, 0 ≤ v)%Z l → (merge_gain l ≤ sum_row l)%Z.
Proof.
  merge_cases l; intros Hpos.
  - simpl. lia.
  - inversion_clear Hpos. simpl. lia.
  - inversion_clear Hpos as [|? ? Ha Hrest]. inversion_clear Hrest.
    specialize (IH ltac:(done)). simpl in *. lia.
  - inversion_clear Hpos as [|? ? Ha Hrest]. specialize (IH Hrest).
    simpl in *. lia.
Qed.

Lemma compress_gain_bounds (row : Row) :
  Forall (λ v, 0 ≤ v)%Z row → (0 ≤ (compress row).2 ≤ sum_row row)%Z.
Proof.
  intros Hpos. unfold compress. cbn [snd].
  assert (Hfilter : Forall (λ v, 0 ≤ v)%Z (filter (λ num, num ≠ 0%Z) row)).
  { apply Forall_forall. intros v Hv. apply list_elem_of_filter in Hv as [_ Hv].
    rewrite Forall_forall in Hpos. by apply Hpos. }
  pose proof (merge_gain_nonneg _ Hfilter).
  pose proof (merge_gain_le_sum _ Hfilter).
  rewrite sum_row_filter in *. lia.
Qed.

Lemma move_left_score_bounds (board : Board) :
  no_negative board → (0 ≤ (move_left board).2 ≤ board_sum board)%Z.
Proof.
  rewrite move_left_map. cbn [snd].
  induction 1 as [|row board Hrow _ IH]; [done|].
  pose proof (compress_gain_bounds row Hrow).
  cbn [fmap list_fmap sum_row board_sum foldr] in *.
  fold (sum_row row). fold (board_sum board).
  fold (sum_row ((λ row0, (compress row0).2) <$> board)). lia.
Qed.

Lemma reverse_rows_sum (board : Board) :
  board_sum (reverse_rows board) = board_sum board.
Proof. apply board_sum_fmap, sum_row_reverse. Qed.

Lemma move_right_snd (board : Board) :
  (move_right board).2 = (move_left (reverse_rows board)).2.
Proof. unfold move_right. by destruct (move_left (reverse_rows board)). Qed.

Lemma move_right_score_bounds (board : Board) :
  no_negative board → (0 ≤ (move_right board).2 ≤ board_sum board)%Z.
Proof.
  intros Hpos. rewrite move_right_snd, <- reverse_rows_sum.
  by apply move_left_score_bounds, reverse_rows_Forall.
Qed.

Lemma move_functions_score_bounds (n : nat) (board : Board) (d : Direction) :
  is_square n board → no_negative board →
  (0 ≤ (move_functions d board).2 ≤ board_sum board)%Z.
Proof.
  intros Hsq Hpos. destruct d; cbn [move_functions].
  - rewrite move_up_snd, <- (transpose_sum n n board Hsq).
    by apply move_left_score_bounds, transpose_Forall.
  - rewrite move_down_snd, <- (transpose_sum n n board Hsq).
    by apply move_right_score_bounds, transpose_Forall.
  - by apply move_left_score_bounds.
  - by apply move_right_score_bounds.
Qed.

(** X10: on a square board without negative cells, the score of a move,
    in each of the four directions, is at least 0 and at most the sum of
    the tiles of the board. *)
Theorem move_score_bounds (n : nat) (board : Board) (d : Direction) :
  is_square n board → no_negative board →
  (0 ≤ (move_functions d board).2 ≤ board_sum board)%Z.
Proof. apply move_functions_score_bounds. Qed.

Lemma move_score_bounds_witness :
  (0 ≤ (move_functions Up [[2; 4]; [2; 4]]%Z).2 ≤ board_sum [[2; 4]; [2; 4]]%Z)%Z.
Proof.
  apply (move_score_bounds 2 [[2; 4]; [2; 4]]%Z Up).
  - split; [reflexivity|]. repeat constructor.
  - repeat constructor; lia.
Defined.

Lemma restart_game_score (self self' : Game2048.t) :
  Game2048.restart_game self = Some self' → Game2048.score self' = 0%Z.
Proof.
  unfold Game2048.restart_game. intros Hr.
  destruct (initialize_game _ _) as [[board g]|]; [|done].
  cbn [mbind option_bind] in Hr. by simplify_eq.
Qed.

Lemma make_move_score (d : Direction) (response : bool)
    (self self' : Game2048.t) (shown : list Event) :
  session_ok self → no_negative (Game2048.board self) →
  Game2048.make_move (move_functions d) response self = Some (self', shown) →
  (Restarted ∉ shown → (Game2048.score self ≤ Game2048.score self')%Z)
  ∧ (Restarted ∈ shown → Game2048.score self' = 0%Z).
Proof.
  intros Hok Hpos Hmove. unfold Game2048.make_move in Hmove.
  pose proof (move_functions_score_bounds _ _ d Hok Hpos) as Hgain.
  destruct (move_functions d (Game2048.board self)) as [new_board gained].
  cbn [snd] in Hgain.
  destruct (negb (boards_equal _ _)).
  2:{ injection Hmove as <- <-. split; [lia|]. intros Hin.
      by apply elem_of_nil in Hin. }
  destruct (add_random_tile _ _) as [[spawned g]|]; [|done].
  cbn [mbind option_bind Game2048.game_won Game2048.board Game2048.size
       Game2048.score Game2048.random] in Hmove.
  assert (Hkeep : ∀ flag e,
    e ≠ Restarted →
    (Restarted ∉ [e] →
     (Game2048.score self
      ≤ Game2048.score (Game2048.mk (Game2048.size self) spawned
                          (Game2048.score self + gained) flag g))%Z)
    ∧ (Restarted ∈ [e] →
       Game2048.score (Game2048.mk (Game2048.size self) spawned
                         (Game2048.score self + gained) flag g) = 0%Z)).
  { intros flag e He. cbn. split; [lia|].
    intros Hin. apply list_elem_of_singleton in Hin. congruence. }
  assert (Hrestart : ∀ e s3 s,
    Game2048.restart_game s = Some s3 →
    (Restarted ∉ [e; Restarted] → (Game2048.score self ≤ Game2048.score s3)%Z)
    ∧ (Restarted ∈ [e; Restarted] → Game2048.score s3 = 0%Z)).
  { intros e s3 s Hr. split.
    - intros Hno. destruct Hno. right. by left.
    - intros _. by eapply restart_game_score. }
  destruct (negb (Game2048.game_won self) && has_won spawned 2048).
  - destruct response; cbn [negb] in Hmove.
    + injection Hmove as <- <-. by apply Hkeep.
    + destruct (Game2048.restart_game _) as [self3|] eqn:Hr; [|done].
      cbn [mbind option_bind] in Hmove. injection Hmove as <- <-.
      by eapply Hrestart.
  - destruct (game_over spawned) as [[|]|]; cbn [mbind option_bind] in Hmove;
      [| |done].
    + destruct response.
      * destruct (Game2048.restart_game _) as [self3|] eqn:Hr; [|done].
        cbn [mbind option_bind] in Hmove. injection Hmove as <- <-.
        by eapply Hrestart.
      * injection Hmove as <- <-. by apply Hkeep.
    + injection Hmove as <- <-. cbn. split; [lia|].
      intros Hin. by apply elem_of_nil in Hin.
Qed.

Lemma step_score (a : Game2048.Action) (self self' : Game2048.t)
    (shown : list Event) :
  session_ok self → no_negative (Game2048.board self) →
  Game2048.step a self = Some (self', shown) →
  (Restarted ∉ shown → (Game2048.score self ≤ Game2048.score self')%Z)
  ∧ (Restarted ∈ shown → Game2048.score self' = 0%Z).
Proof.
  intros Hok Hpos. destruct a as [d response|]; cbn [Game2048.step].
  - by apply make_move_score.
  - destruct (Game2048.restart_game self) as [s'|] eqn:Hr; [|done].
    cbn [mbind option_bind]. intros [= <- <-]. split.
    + intros Hno. destruct Hno. by left.
    + intros _. by eapply restart_game_score.
Qed.

Lemma step_no_negative (a : Game2048.Action) (self self' : Game2048.t)
    (shown : list Event) :
  Game2048.step a self = Some (self', shown) →
  no_negative (Game2048.board self) → no_negative (Game2048.board self').
Proof.
  intros Hstep. apply (run_Forall (λ v, 0 ≤ v)%Z) with (actions := [a]) (shown := shown);
    [done|lia|done|done|].
  cbn [Game2048.run]. rewrite Hstep. cbn [mbind option_bind].
  by rewrite app_nil_r.
Qed.

Lemma run_score (actions : list Game2048.Action) (self : Game2048.t) :
  session_ok self → no_negative (Game2048.board self) →
  ∃ self' shown,
    Game2048.run actions self = Some (self', shown)
    ∧ (Restarted ∉ shown → (Game2048.score self ≤ Game2048.score self')%Z)
    ∧ ((0 ≤ Game2048.score self)%Z → (0 ≤ Game2048.score self')%Z).
Proof.
  revert self. induction actions as [|a actions IH]; intros self Hok Hpos.
  - exists self, []. split; [done|]. split; [lia|done].
  - cbn [Game2048.run].
    destruct (step_total a self Hok) as (s1 & shown1 & Hstep & Hok1 & _).
    destruct (step_score _ _ _ _ Hok Hpos Hstep) as [Hkeep Hreset].
    pose proof (step_no_negative _ _ _ _ Hstep Hpos) as Hpos1.
    rewrite Hstep. cbn [mbind option_bind].
    destruct (IH s1 Hok1 Hpos1) as (s2 & shown2 & -> & Hkeep2 & Hpos2).
    cbn [mbind option_bind]. exists s2, (shown1 ++ shown2).
    split; [done|]. split.
    + intros Hno. apply not_elem_of_app in Hno as [Hno1 Hno2].
      specialize (Hkeep Hno1). specialize (Hkeep2 Hno2). lia.
    + intros H0. apply Hpos2.
      destruct (decide (Restarted ∈ shown1)) as [Hin|Hout].
      * rewrite (Hreset Hin). lia.
      * specialize (Hkeep Hout). lia.
Qed.

(** X11: from a session that owns a square board without negative cells,
    any run of key presses and "New Game" clicks raises nothing; as long as
    no restart happens in it the score does not decrease, and a score that
    is not negative stays so (a restart sets it to 0). *)
Theorem score_never_decreases (actions : list Game2048.Action) (self : Game2048.t) :
  session_ok self → no_negative (Game2048.board self) →
  ∃ self' shown,
    Game2048.run actions self = Some (self', shown)
    ∧ (Restarted ∉ shown → (Game2048.score self ≤ Game2048.score self')%Z)
    ∧ ((0 ≤ Game2048.score self)%Z → (0 ≤ Game2048.score self')%Z).
Proof. apply run_score. Qed.

Lemma score_never_decreases_witness :
  ∃ self' shown,
    Game2048.run [Game2048.KeyPress Left true; Game2048.KeyPress Down false]
      (Game2048.mk 2 [[2; 2]; [0; 4]]%Z 0 false
         (mkRandom (λ _, 0) (λ _, true) 0 0))
    = Some (self', shown)
    ∧ (Restarted ∉ shown → (0 ≤ Game2048.score self')%Z)
    ∧ ((0 ≤ 0)%Z → (0 ≤ Game2048.score self')%Z).
Proof.
  apply (score_never_decreases
           [Game2048.KeyPress Left true; Game2048.KeyPress Down false]
           (Game2048.mk 2 [[2; 2]; [0; 4]]%Z 0 false
              (mkRandom (λ _, 0) (λ _, true) 0 0))).
  - split; [reflexivity|]. repeat constructor.
  - repeat constructor; lia.
Defined.

(** ** A move that changes the board leaves room for a tile *)

Lemma length_filter_eq {A} (P : A → Prop) `{!∀ x, Decision (P x)} (l : list A) :
  length (filter P l) = length l → filter P l = l.
Proof.
  induction l as [|x l IH]; [done|]. rewrite filter_cons.
  destruct (decide (P x)) as [HP|HP]; simpl.
  - intros Hlen. f_equal. apply IH. lia.
  - intros Hlen. pose proof (length_filter P l). lia.
Qed.

Lemma compress_no_zero_fixed (row : Row) :
  Forall (λ v, v ≠ 0%Z) (compress row).1 → (compress row).1 = row.
Proof.
  intros Hnz.
  destruct (compress_shape row) as (merged & k & Heq & Hmerged & _ & Hlen).
  rewrite Heq in *. destruct k as [|k].
  2:{ apply Forall_app in Hnz as [_ Hnz]. by inversion_clear Hnz. }
  rewrite app_nil_r.
  pose proof (merge_row_length_le (filter (λ num, num ≠ 0%Z) row)) as Hle.
  pose proof (length_filter (λ num, num ≠ 0%Z) row) as Hle'.
  rewrite <- Hmerged in Hle.
  assert (Hfilter : filter (λ num, num ≠ 0%Z) row = row)
    by (apply length_filter_eq; lia).
  rewrite Hfilter in Hmerged. rewrite Hmerged.
  apply merge_row_fixed, merge_row_same_length. rewrite <- Hmerged. lia.
Qed.

Lemma move_left_no_zero_fixed (board : Board) :
  Forall (Forall (λ v, v ≠ 0%Z)) (move_left board).1 → (move_left board).1 = board.
Proof.
  intros Hnz. apply move_left_fixed.
  rewrite move_left_map in Hnz. cbn [fst] in Hnz. rewrite Forall_fmap in Hnz.
  eapply Forall_impl; [exact Hnz|]. intros row. apply compress_no_zero_fixed.
Qed.

Lemma move_right_no_zero_fixed (board : Board) :
  Forall (Forall (λ v, v ≠ 0%Z)) (move_right board).1 → (move_right board).1 = board.
Proof.
  intros Hnz. apply move_right_fixed.
  rewrite move_right_map in Hnz. cbn [fst] in Hnz. rewrite Forall_fmap in Hnz.
  eapply Forall_impl; [exact Hnz|]. intros row Hrow.
  unfold compose in Hrow. cbn beta in Hrow.
  apply compress_no_zero_fixed. exact (proj1 (Forall_reverse _ _) Hrow).
Qed.

Lemma move_functions_no_zero_fixed (n : nat) (board : Board) (d : Direction) :
  is_square n board →
  Forall (Forall (λ v, v ≠ 0%Z)) (move_functions d board).1 →
  (move_functions d board).1 = board.
Proof.
  intros Hsq Hnz. destruct d; cbn [move_functions] in *.
  - rewrite move_up_fst in *.
    pose proof (move_left_rect n n _ (transpose_square n _ Hsq)) as Hin.
    apply transpose_Forall in Hnz.
    rewrite (transpose_square_involutive n _ Hin) in Hnz.
    rewrite (move_left_no_zero_fixed _ Hnz).
    by apply (transpose_square_involutive n).
  - rewrite move_down_fst in *.
    pose proof (move_right_rect n n _ (transpose_square n _ Hsq)) as Hin.
    apply transpose_Forall in Hnz.
    rewrite (transpose_square_involutive n _ Hin) in Hnz.
    rewrite (move_right_no_zero_fixed _ Hnz).
    by apply (transpose_square_involutive n).
  - by apply move_left_no_zero_fixed.
  - by apply move_right_no_zero_fixed.
Qed.

Lemma has_empty_cell_dec (board : Board) :
  (∃ i j, cell board i j = Some 0%Z) ∨ Forall (Forall (λ v, v ≠ 0%Z)) board.
Proof.
  destruct (decide (Forall (λ row : Row, Forall (λ v, v ≠ 0%Z) row) board))
    as [Hfull|Hempty]; [by right|left].
  apply not_Forall_Exists in Hempty; [|apply _].
  apply Exists_exists in Hempty as (row & Hrow & Hrowz).
  apply not_Forall_Exists in Hrowz; [|apply _].
  apply Exists_exists in Hrowz as (z & Hz & Hz0).
  assert (z = 0%Z) as -> by (destruct (decide (z = 0%Z)); [done|by destruct Hz0]).
  apply list_elem_of_lookup in Hrow as [i Hrow].
  apply list_elem_of_lookup in Hz as [j Hz].
  exists i, j. apply cell_row. eauto.
Qed.

Lemma changed_move_has_empty (n : nat) (board : Board) (d : Direction) :
  is_square n board → (move_functions d board).1 ≠ board →
  ∃ i j, cell (move_functions d board).1 i j = Some 0%Z.
Proof.
  intros Hsq Hne.
  destruct (has_empty_cell_dec (move_functions d board).1) as [|Hfull]; [done|].
  by destruct Hne; apply (move_functions_no_zero_fixed n).
Qed.

Lemma sum_row_cons (a : Z) (l : Row) : sum_row (a :: l) = (a + sum_row l)%Z.
Proof. done. Qed.

Lemma board_sum_cons (r : Row) (board : Board) :
  board_sum (r :: board) = (sum_row r + board_sum board)%Z.
Proof. done. Qed.

Lemma sum_row_insert (row : Row) (j : nat) (old v : Z) :
  row !! j = Some old → sum_row (<[j := v]> row) = (sum_row row - old + v)%Z.
Proof.
  revert j. induction row as [|a row IH]; intros [|j] Hj; try done.
  - simpl in *. simplify_eq. lia.
  - change (<[S j := v]> (a :: row)) with (a :: <[j := v]> row).
    rewrite !sum_row_cons, (IH j Hj). lia.
Qed.

Lemma board_sum_insert (board : Board) (i : nat) (row row' : Row) :
  board !! i = Some row →
  board_sum (<[i := row']> board)
  = (board_sum board - sum_row row + sum_row row')%Z.
Proof.
  revert i. induction board as [|r board IH]; intros [|i] Hi; try done.
  - simpl in *. simplify_eq. lia.
  - change (<[S i := row']> (r :: board)) with (r :: <[i := row']> board).
    rewrite !board_sum_cons, (IH i Hi). lia.
Qed.

Lemma count_tiles_insert (board : Board) (i j : nat) (row : Row) (v : Z) :
  board !! i = Some row → row !! j = Some 0%Z → v ≠ 0%Z →
  count_tiles (<[i := <[j := v]> row]> board) = (count_tiles board + 1)%Z.
Proof.
  intros Hrow Hj Hv. unfold count_tiles.
  rewrite list_fmap_insert.
  rewrite (board_sum_insert _ i
             ((λ v0 : Z, if bool_decide (v0 = 0%Z) then 0%Z else 1%Z) <$> row))
    by (by rewrite list_lookup_fmap, Hrow).
  rewrite list_fmap_insert.
  rewrite (sum_row_insert _ j 0%Z) by (by rewrite list_lookup_fmap, Hj).
  rewrite bool_decide_eq_false_2 by done. lia.
Qed.

(** What [add_random_tile] does on a rectangular board, with the sum and
    the number of tiles. *)
Lemma add_random_tile_full (n m : nat) (board : Board) (g : Random) :
  is_rect n m board →
  ∃ board' g', add_random_tile board g = Some (board', g')
    ∧ is_rect n m board'
    ∧ ((∀ i j, cell board i j ≠ Some 0%Z) → board' = board ∧ g' = g)
    ∧ ((∃ i j, cell board i j = Some 0%Z) →
         ∃ i j v, cell board i j = Some 0%Z ∧ (v = 2%Z ∨ v = 4%Z)
           ∧ cell board' i j = Some v
           ∧ (∀ i' j', (i', j') ≠ (i, j) → cell board' i' j' = cell board i' j')
           ∧ board_sum board' = (board_sum board + v)%Z
           ∧ count_tiles board' = (count_tiles board + 1)%Z).
Proof.
  intros Hrect.
  destruct (add_random_tile_spec n m board g Hrect)
    as (board' & g' & Hadd & Hrect' & Hfull & _).
  exists board', g'. split; [done|]. split; [done|]. split; [done|].
  intros (i0 & j0 & Hempty).
  destruct (get_empty_cells_total n m board Hrect) as (cells & Hcells & Hiff).
  destruct (add_random_tile_cases _ _ _ _ Hadd)
    as [(Hnil & _)|(cells' & i & j & v & row & Hcells' & Hin & Hv & Hrow & Hj & ->)].
  { rewrite Hcells in Hnil. simplify_eq. apply Hiff in Hempty.
    by apply elem_of_nil in Hempty. }
  rewrite Hcells in Hcells'. simplify_eq.
  apply Hiff in Hin. pose proof Hin as Hc.
  apply cell_row in Hc as (row' & Hrow' & Hc). simplify_eq.
  destruct (set_cell_spec n m board i j 0%Z v Hrect Hin)
    as (b'' & Hset & _ & Hnew & Hframe).
  unfold set_cell in Hset. rewrite Hrow in Hset. cbn [mbind option_bind] in Hset.
  rewrite bool_decide_eq_true_2 in Hset by done. simplify_eq.
  exists i, j, v. split; [done|]. split; [done|]. split; [done|].
  split; [done|]. split.
  - rewrite (board_sum_insert _ _ row) by done.
    rewrite (sum_row_insert _ _ 0%Z) by done. lia.
  - apply count_tiles_insert; [done..|]. by destruct Hv as [->| ->].
Qed.

Lemma changed_move_spawn (n : nat) (board : Board) (d : Direction)
    (g : Random) :
  is_square n board → (move_functions d board).1 ≠ board →
  (∃ i j, cell (move_functions d board).1 i j = Some 0%Z)
  ∧ ∃ board' g',
      add_random_tile (move_functions d board).1 g = Some (board', g')
      ∧ count_tiles board' = (count_tiles (move_functions d board).1 + 1)%Z
      ∧ (board_sum board' = (board_sum board + 2)%Z
         ∨ board_sum board' = (board_sum board + 4)%Z).
Proof.
  intros Hsq Hne.
  pose proof (changed_move_has_empty n board d Hsq Hne) as Hempty.
  split; [done|].
  pose proof (move_functions_square d n board Hsq) as Hmoved.
  destruct (add_random_tile_full n n _ g Hmoved)
    as (board' & g' & Hadd & _ & _ & Hspawn).
  destruct (Hspawn Hempty) as (i & j & v & _ & Hv & _ & _ & Hsum & Hcount).
  exists board', g'. split; [done|]. split; [done|].
  assert (Hkeep : board_sum (move_functions d board).1 = board_sum board).
  { destruct d; cbn [move_functions].
    - by apply (move_up_sum n).
    - by apply (move_down_sum n).
    - apply move_left_sum.
    - apply move_right_sum. }
  rewrite Hsum, Hkeep. destruct Hv as [->| ->]; auto.
Qed.

(** X12: a move that changes a square board, in any of the four
    directions, leaves at least one empty cell; so [add_random_tile] always
    places a tile after it: the board that results has one tile more than
    the moved board, and its tiles add up to 2 or 4 more than those of the
    board before the move. *)
Theorem changed_move_gets_a_tile (n : nat) (board : Board) (d : Direction)
    (g : Random) :
  is_square n board → (move_functions d board).1 ≠ board →
  (∃ i j, cell (move_functions d board).1 i j = Some 0%Z)
  ∧ ∃ board' g',
      add_random_tile (move_functions d board).1 g = Some (board', g')
      ∧ count_tiles board' = (count_tiles (move_functions d board).1 + 1)%Z
      ∧ (board_sum board' = (board_sum board + 2)%Z
         ∨ board_sum board' = (board_sum board + 4)%Z).
Proof. apply changed_move_spawn. Qed.

Lemma changed_move_gets_a_tile_witness :
  (∃ i j, cell (move_functions Left [[0; 2]; [4; 8]]%Z).1 i j = Some 0%Z)
  ∧ ∃ board' g',
      add_random_tile (move_functions Left [[0; 2]; [4; 8]]%Z).1
        (mkRandom (λ _, 0) (λ _, true) 0 0) = Some (board', g')
      ∧ count_tiles board'
        = (count_tiles (move_functions Left [[0; 2]; [4; 8]]%Z).1 + 1)%Z
      ∧ (board_sum board' = (board_sum [[0; 2]; [4; 8]]%Z + 2)%Z
         ∨ board_sum board' = (board_sum [[0; 2]; [4; 8]]%Z + 4)%Z).
Proof.
  apply (changed_move_gets_a_tile 2 [[0; 2]; [4; 8]]%Z Left).
  - split; [reflexivity|]. repeat constructor.
  - intros [=].
Defined.

(** ** What one key press does to the session *)

Lemma make_move_same (move_function : Board → Board * Z) (response : bool)
    (self : Game2048.t) :
  (move_function (Game2048.board self)).1 = Game2048.board self →
  Game2048.make_move move_function response self = Some (self, []).
Proof.
  intros Hsame. unfold Game2048.make_move.
  destruct (move_function (Game2048.board self)) as [new_board gained].
  cbn [fst] in Hsame. subst new_board. unfold boards_equal.
  by rewrite bool_decide_eq_true_2.
Qed.

Lemma make_move_accepted (move_function : Board → Board * Z) (response : bool)
    (self self' : Game2048.t) (shown : list Event)
    (new_board spawned : Board) (gained : Z) (g : Random) :
  move_function (Game2048.board self) = (new_board, gained) →
  new_board ≠ Game2048.board self →
  add_random_tile new_board (Game2048.random self) = Some (spawned, g) →
  Game2048.make_move move_function response self = Some (self', shown) →
  ((Restarted ∉ shown)
   ∧ Game2048.board self' = spawned
   ∧ Game2048.score self' = (Game2048.score self + gained)%Z
   ∧ Game2048.size self' = Game2048.size self
   ∧ Game2048.random self' = g)
  ∨ (Restarted ∈ shown ∧ ∃ s, Game2048.restart_game s = Some self').
Proof.
  intros Hmf Hne Hadd. unfold Game2048.make_move. rewrite Hmf.
  unfold boards_equal. rewrite bool_decide_eq_false_2 by done.
  cbn [negb]. rewrite Hadd.
  cbn [mbind option_bind Game2048.game_won Game2048.board Game2048.size
       Game2048.score Game2048.random].
  assert (Hone : ∀ e, e ≠ Restarted → Restarted ∉ [e]).
  { intros e He Hin. apply list_elem_of_singleton in Hin. congruence. }
  assert (Htwo : ∀ e, Restarted ∈ [e; Restarted]) by (intros e; right; by left).
  destruct (negb (Game2048.game_won self) && has_won spawned 2048).
  - destruct response; cbn [negb].
    + intros [= <- <-]. left. by split; [apply Hone|].
    + destruct (Game2048.restart_game _) as [self3|] eqn:Hr; [|done].
      cbn [mbind option_bind]. intros [= <- <-]. right. eauto.
  - destruct (game_over spawned) as [[|]|]; cbn [mbind option_bind]; [| |done].
    + destruct response.
      * destruct (Game2048.restart_game _) as [self3|] eqn:Hr; [|done].
        cbn [mbind option_bind]. intros [= <- <-]. right. eauto.
      * intros [= <- <-]. left. by split; [apply Hone|].
    + intros [= <- <-]. left. split; [|done].
      intros Hin. by apply elem_of_nil in Hin.
Qed.

(** X13: one key press on a session that owns a square board raises
    nothing and does one of three things.  If the mover leaves the board
    as it is, the session is unchanged and nothing is shown.  Otherwise,
    unless the player restarts from a dialog, the board gets exactly one
    new tile (its tiles add up to 2 or 4 more than before the move, so the
    board does change), the score grows by the score of the move and the
    size stays; and if the player restarts, the score is 0 and the win
    flag clear. *)
Theorem make_move_outcomes (d : Direction) (response : bool) (self : Game2048.t) :
  session_ok self →
  ∃ self' shown,
    Game2048.make_move (move_functions d) response self = Some (self', shown)
    ∧ (((move_functions d (Game2048.board self)).1 = Game2048.board self
        ∧ self' = self ∧ shown = [])
       ∨ ((move_functions d (Game2048.board self)).1 ≠ Game2048.board self
          ∧ (Restarted ∉ shown)
          ∧ Game2048.size self' = Game2048.size self
          ∧ Game2048.score self'
            = (Game2048.score self
               + (move_functions d (Game2048.board self)).2)%Z
          ∧ count_tiles (Game2048.board self')
            = (count_tiles (move_functions d (Game2048.board self)).1 + 1)%Z
          ∧ (board_sum (Game2048.board self')
             = (board_sum (Game2048.board self) + 2)%Z
             ∨ board_sum (Game2048.board self')
               = (board_sum (Game2048.board self) + 4)%Z))
       ∨ ((move_functions d (Game2048.board self)).1 ≠ Game2048.board self
          ∧ Restarted ∈ shown
          ∧ Game2048.score self' = 0%Z ∧ Game2048.game_won self' = false)).
Proof.
  intros Hok.
  destruct (make_move_total d response self Hok) as (self' & shown & Hmove & _ & _).
  exists self', shown. split; [done|].
  destruct (decide ((move_functions d (Game2048.board self)).1
                    = Game2048.board self)) as [Hsame|Hne].
  { left. rewrite (make_move_same _ response self Hsame) in Hmove.
    by simplify_eq. }
  right.
  destruct (changed_move_spawn _ _ d (Game2048.random self) Hok Hne)
    as (_ & spawned & g & Hadd & Hcount & Hsum).
  destruct (move_functions d (Game2048.board self)) as [new_board gained] eqn:Hmf.
  cbn [fst snd] in *.
  destruct (make_move_accepted _ _ _ _ _ _ _ _ _ Hmf Hne Hadd Hmove)
    as [(Hno & -> & Hscore & Hsize & _)|(Hin & s & Hr)].
  - left. by repeat split.
  - right. split; [done|]. split; [done|]. split.
    + by eapply restart_game_score.
    + by eapply restart_game_flag.
Qed.

Lemma make_move_outcomes_witness :
  ∃ self' shown,
    Game2048.make_move (move_functions Left) true
      (Game2048.mk 2 [[0; 2]; [4; 8]]%Z 0 false
         (mkRandom (λ _, 0) (λ _, true) 0 0)) = Some (self', shown)
    ∧ Game2048.size self' = 2%Z.
Proof.
  destruct (make_move_outcomes Left true
              (Game2048.mk 2 [[0; 2]; [4; 8]]%Z 0 false
                 (mkRandom (λ _, 0) (λ _, true) 0 0)))
    as (self' & shown & Hmove & Hcases).
  { split; [reflexivity|]. repeat constructor. }
  exists self', shown. split; [exact Hmove|].
  vm_compute in Hmove. injection Hmove as <- <-. reflexivity.
Defined.

(** X14: on a session that owns a square board, when [game_over] answers
    [True] every key press is rejected, in each of the four directions:
    the session stays as it is and nothing is shown, until "New Game".
    When it answers [False] and the board holds a tile, some direction
    changes the board. *)
Theorem game_over_is_terminal (self : Game2048.t) :
  session_ok self →
  (game_over (Game2048.board self) = Some true →
   ∀ d response,
     Game2048.make_move (move_functions d) response self = Some (self, []))
  ∧ (game_over (Game2048.board self) = Some false →
     (∃ i j v, cell (Game2048.board self) i j = Some v ∧ v ≠ 0%Z) →
     ∃ d, (move_functions d (Game2048.board self)).1 ≠ Game2048.board self).
Proof.
  intros Hok. unfold game_over.
  assert (Hcan : ∀ b, can_move (Game2048.board self) = Some b →
                      b = true ↔ cheap_check (Game2048.board self)).
  { intros b Hb.
    assert (Hpos : 0 < Z.to_nat (Game2048.size self)).
    { unfold session_ok in Hok.
      destruct (Z.to_nat (Game2048.size self)); [|lia].
      by rewrite (square_zero_nil _ Hok) in Hb. }
    destruct (can_move_total _ _ _ Hok Hpos) as (b' & Hb' & Hiff).
    rewrite Hb in Hb'. by simplify_eq. }
  split.
  - intros Hover d response.
    destruct (can_move (Game2048.board self)) as [[|]|] eqn:Hb; try done.
    apply make_move_same.
    destruct (decide ((move_functions d (Game2048.board self)).1
                      = Game2048.board self)) as [|Hne]; [done|].
    destruct (blocked_board_fixed _ _ Hok).
    + intros Hcheap. by apply (Hcan false) in Hcheap.
    + unfold some_move_changes. destruct d; cbn [move_functions] in Hne; auto.
  - intros Hover Htile.
    destruct (can_move (Game2048.board self)) as [[|]|] eqn:Hb; try done.
    destruct (cheap_check_moves _ _ Hok Htile) as [H|[H|[H|H]]];
      [by apply (Hcan true)| | | |].
    + by exists Up.
    + by exists Down.
    + by exists Left.
    + by exists Right.
Qed.

Lemma game_over_is_terminal_witness :
  let self := Game2048.mk 2 [[2; 4]; [8; 16]]%Z 0 false
                (mkRandom (λ _, 0) (λ _, true) 0 0) in
  (game_over (Game2048.board self) = Some true →
   ∀ d response,
     Game2048.make_move (move_functions d) response self = Some (self, []))
  ∧ (game_over (Game2048.board self) = Some false →
     (∃ i j v, cell (Game2048.board self) i j = Some v ∧ v ≠ 0%Z) →
     ∃ d, (move_functions d (Game2048.board self)).1 ≠ Game2048.board self).
Proof.
  intros self. apply (game_over_is_terminal self).
  split; [reflexivity|]. repeat constructor.
Defined.

Lemma compress_single (v : Z) : compress [v] = ([v], 0%Z).
Proof.
  unfold compress. destruct (decide (v = 0%Z)) as [->|Hv]; [done|].
  by rewrite filter_cons_True.
Qed.

Lemma tiny_board_fixed (n : nat) (board : Board) (d : Direction) :
  is_square n board → n ≤ 1 → (move_functions d board).1 = board.
Proof.
  intros [Hlen Hrows] Hn.
  destruct board as [|r [|r' rest]]; [by destruct d| |simpl in Hlen; lia].
  inversion_clear Hrows as [|? ? Hr _]. simpl in Hlen. subst n.
  destruct r as [|v [|v' r]]; try done.
  assert (Hleft : move_left [[v]] = ([[v]], 0%Z)).
  { unfold move_left. cbn [foldl]. by rewrite compress_single. }
  assert (Hright : move_right [[v]] = ([[v]], 0%Z)).
  { unfold move_right.
    change (reverse_rows [[v]]) with [[v]]. by rewrite Hleft. }
  destruct d; cbn [move_functions].
  - unfold move_up. change (transpose [[v]]) with [[v]]. by rewrite Hleft.
  - unfold move_down. change (transpose [[v]]) with [[v]]. by rewrite Hright.
  - by rewrite Hleft.
  - by rewrite Hright.
Qed.

(** X15: a session of size 1, or of a size of 0 or less, is stuck from
    the start: every key press, in each of the four directions, is
    rejected, so no tile is ever spawned and no "Game Over" dialog is ever
    shown. *)
Theorem tiny_session_is_stuck (self : Game2048.t) (d : Direction)
    (response : bool) :
  session_ok self → (Game2048.size self ≤ 1)%Z →
  Game2048.make_move (move_functions d) response self = Some (self, []).
Proof.
  intros Hok Hsize. apply make_move_same.
  apply (tiny_board_fixed (Z.to_nat (Game2048.size self))); [done|lia].
Qed.

Lemma tiny_session_is_stuck_witness :
  Game2048.make_move (move_functions Right) true
    (Game2048.mk 1 [[2]]%Z 0 false (mkRandom (λ _, 0) (λ _, true) 0 0))
  = Some (Game2048.mk 1 [[2]]%Z 0 false (mkRandom (λ _, 0) (λ _, true) 0 0), []).
Proof.
  apply (tiny_session_is_stuck
           (Game2048.mk 1 [[2]]%Z 0 false (mkRandom (λ _, 0) (λ _, true) 0 0))).
  - split; [reflexivity|]. repeat constructor.
  - simpl. lia.
Defined.

(** ** A fresh game *)

Lemma count_tiles_zeros (board : Board) :
  Forall (Forall (λ v, v = 0%Z)) board → count_tiles board = 0%Z.
Proof.
  unfold count_tiles. induction 1 as [|row board Hrow _ IH]; [done|].
  rewrite fmap_cons, board_sum_cons, IH.
  rewrite sum_row_zero; [done|]. apply Forall_fmap.
  eapply Forall_impl; [exact Hrow|]. by intros v ->.
Qed.

Lemma initialize_game_fresh (size : Z) (g : Random) :
  ∃ board g',
    initialize_game size g = Some (board, g')
    ∧ is_square (Z.to_nat size) board
    ∧ Forall (Forall (λ v, v = 0 ∨ v = 2 ∨ v = 4)%Z) board
    ∧ count_tiles board
      = Z.min 2 (Z.of_nat (Z.to_nat size * Z.to_nat size)).
Proof.
  pose proof (create_board_square size) as Hsq0.
  assert (Hzero : ∀ i j, i < Z.to_nat size → j < Z.to_nat size →
                         cell (create_board size) i j = Some 0%Z).
  { intros i j Hi Hj. unfold cell, create_board.
    rewrite lookup_replicate_2 by done. cbn [mbind option_bind].
    by apply lookup_replicate_2. }
  assert (Hcount0 : count_tiles (create_board size) = 0%Z).
  { apply count_tiles_zeros. unfold create_board.
    by apply Forall_replicate, Forall_replicate. }
  destruct (add_random_tile_full _ _ _ g Hsq0)
    as (b1 & g1 & Hadd1 & Hsq1 & Hfull1 & Hspawn1).
  destruct (add_random_tile_full _ _ _ g1 Hsq1)
    as (b2 & g2 & Hadd2 & Hsq2 & Hfull2 & Hspawn2).
  exists b2, g2. unfold initialize_game. rewrite Hadd1. cbn [mbind option_bind].
  rewrite Hadd2. cbn [mbind option_bind]. split; [done|]. split; [done|]. split.
  { eapply (add_random_tile_Forall (λ v, v = 0 ∨ v = 2 ∨ v = 4)%Z);
      [auto|auto|exact Hadd2|].
    eapply (add_random_tile_Forall (λ v, v = 0 ∨ v = 2 ∨ v = 4)%Z);
      [auto|auto|exact Hadd1|].
    unfold create_board. apply Forall_replicate, Forall_replicate. auto. }
  destruct (Z.to_nat size) as [|[|n]] eqn:Hn.
  - assert (Hnone : ∀ b : Board, is_square 0 b → ∀ i j, cell b i j ≠ Some 0%Z).
    { intros b Hb i j. by rewrite (square_zero_nil b Hb). }
    destruct (Hfull1 (Hnone _ Hsq0)) as [-> _].
    destruct (Hfull2 (Hnone _ Hsq0)) as [-> _]. by rewrite Hcount0.
  - destruct Hspawn1 as (i & j & v & _ & Hv & Hnew & _ & _ & Hcount1).
    { exists 0, 0. apply Hzero; lia. }
    destruct (cell_Some_lt _ _ _ _ _ _ Hsq1 Hnew) as [Hi Hj].
    assert (i = 0) as -> by lia. assert (j = 0) as -> by lia.
    destruct Hfull2 as [-> _].
    { intros i' j' Hc. destruct (cell_Some_lt _ _ _ _ _ _ Hsq1 Hc) as [Hi' Hj'].
      assert (i' = 0) as -> by lia. assert (j' = 0) as -> by lia.
      rewrite Hnew in Hc. destruct Hv as [->| ->]; done. }
    rewrite Hcount1, Hcount0. done.
  - destruct Hspawn1 as (i & j & v & _ & Hv & Hnew & Hframe & _ & Hcount1).
    { exists 0, 0. apply Hzero; lia. }
    destruct Hspawn2 as (i2 & j2 & v2 & _ & _ & _ & _ & _ & Hcount2).
    { destruct (decide ((0, 0) = (i, j))) as [Heq|Hne].
      - exists 0, 1. rewrite Hframe by congruence. apply Hzero; lia.
      - exists 0, 0. rewrite Hframe by done. apply Hzero; lia. }
    rewrite Hcount2, Hcount1, Hcount0.
    rewrite Z.min_l; [done|]. simpl. lia.
Qed.

(** X16: [initialize_game] raises nothing, whatever the size and the
    draws: it returns a square board of that size whose cells are 0, 2 or
    4, with exactly two tiles from the size 2 on, one tile for the size 1,
    and no cell at all for a size of 0 or less. *)
Theorem initialize_game_two_tiles (size : Z) (g : Random) :
  ∃ board g',
    initialize_game size g = Some (board, g')
    ∧ is_square (Z.to_nat size) board
    ∧ Forall (Forall (λ v, v = 0 ∨ v = 2 ∨ v = 4)%Z) board
    ∧ count_tiles board
      = Z.min 2 (Z.of_nat (Z.to_nat size * Z.to_nat size)).
Proof. apply initialize_game_fresh. Qed.

(** X17: [restart_game] raises nothing whatever the session holds, and
    [Game2048.__init__] neither: both give a session of the same size with
    a fresh board of [initialize_game] (square, two tiles from the size 2
    on), the score 0 and the win flag clear. *)
Theorem restart_gives_fresh_game :
  (∀ self, ∃ self',
     Game2048.restart_game self = Some self'
     ∧ Game2048.size self' = Game2048.size self
     ∧ Game2048.score self' = 0%Z
     ∧ Game2048.game_won self' = false
     ∧ session_ok self'
     ∧ count_tiles (Game2048.board self')
       = Z.min 2 (Z.of_nat (Z.to_nat (Game2048.size self)
                            * Z.to_nat (Game2048.size self))))
  ∧ (∀ size g, ∃ self',
       Game2048_init size g = Some self'
       ∧ Game2048.size self' = size
       ∧ Game2048.score self' = 0%Z
       ∧ Game2048.game_won self' = false
       ∧ session_ok self'
       ∧ count_tiles (Game2048.board self')
         = Z.min 2 (Z.of_nat (Z.to_nat size * Z.to_nat size))).
Proof.
  split.
  - intros self. unfold Game2048.restart_game.
    destruct (initialize_game_fresh (Game2048.size self) (Game2048.random self))
      as (board & g' & -> & Hsq & _ & Hcount).
    cbn [mbind option_bind]. eexists. split; [reflexivity|]. by cbn.
  - intros size g. unfold Game2048_init.
    destruct (initialize_game_fresh size g) as (board & g' & -> & Hsq & _ & Hcount).
    cbn [mbind option_bind]. eexists. split; [reflexivity|]. by cbn.
Qed.

(** X18: on a rectangular board [can_move] raises [IndexError] exactly on
    the board without rows; on every other rectangular board, square or
    not, it returns the cheap check: an empty cell, or two equal neighbours
    in a row, or two equal neighbours in a column. *)
Theorem can_move_on_rectangles (n m : nat) (board : Board) :
  is_rect n m board →
  (can_move board = None ↔ board = [])
  ∧ (board ≠ [] →
     ∃ b, can_move board = Some b ∧ (b = true ↔ cheap_check board)).
Proof.
  intros Hrect.
  assert (Hsome : board ≠ [] →
    ∃ b, can_move board = Some b ∧ (b = true ↔ cheap_check board)).
  { intros Hne. apply (can_move_total n m); [done|].
    destruct Hrect as [<- _]. destruct board; [done|simpl; lia]. }
  split; [|done]. split.
  - intros Hnone. destruct board as [|r rest]; [done|].
    destruct Hsome as (b & Hb & _); [done|]. congruence.
  - by intros ->.
Qed.

Lemma can_move_on_rectangles_witness :
  ∃ b, can_move [[2; 4; 2]; [4; 2; 4]]%Z = Some b
       ∧ (b = true ↔ cheap_check [[2; 4; 2]; [4; 2; 4]]%Z).
Proof.
  apply (can_move_on_rectangles 2 3 [[2; 4; 2]; [4; 2; 4]]%Z).
  - split; [reflexivity|]. repeat constructor.
  - discriminate.
Defined.

Lemma restart_game_size (self self' : Game2048.t) :
  Game2048.restart_game self = Some self' →
  Game2048.size self' = Game2048.size self.
Proof.
  unfold Game2048.restart_game. intros Hr.
  destruct (initialize_game _ _) as [[board g]|]; [|done].
  cbn [mbind option_bind] in Hr. by simplify_eq.
Qed.

Lemma make_move_size (move_function : Board → Board * Z) (response : bool)
    (self self' : Game2048.t) (shown : list Event) :
  Game2048.make_move move_function response self = Some (self', shown) →
  Game2048.size self' = Game2048.size self.
Proof.
  unfold Game2048.make_move.
  destruct (move_function (Game2048.board self)) as [new_board gained].
  destruct (negb (boards_equal _ _)); [|by intros [= <- <-]].
  destruct (add_random_tile _ _) as [[spawned g]|]; [|done].
  cbn [mbind option_bind Game2048.game_won Game2048.board Game2048.size
       Game2048.score Game2048.random].
  destruct (negb (Game2048.game_won self) && has_won spawned 2048).
  - destruct response; cbn [negb]; [by intros [= <- <-]|].
    destruct (Game2048.restart_game _) as [self3|] eqn:Hr; [|done].
    cbn [mbind option_bind]. intros [= <- <-].
    by rewrite (restart_game_size _ _ Hr).
  - destruct (game_over spawned) as [[|]|]; cbn [mbind option_bind];
      [|by intros [= <- <-]|done].
    destruct response; [|by intros [= <- <-]].
    destruct (Game2048.restart_game _) as [self3|] eqn:Hr; [|done].
    cbn [mbind option_bind]. intros [= <- <-].
    by rewrite (restart_game_size _ _ Hr).
Qed.

Lemma run_size (actions : list Game2048.Action) (self self' : Game2048.t)
    (shown : list Event) :
  Game2048.run actions self = Some (self', shown) →
  Game2048.size self' = Game2048.size self.
Proof.
  revert self shown. induction actions as [|a actions IH]; intros self shown.
  - by intros [= <- <-].
  - cbn [Game2048.run].
    destruct (Game2048.step a self) as [[s1 shown1]|] eqn:Hstep; [|done].
    cbn [mbind option_bind].
    destruct (Game2048.run actions s1) as [[s2 shown2]|] eqn:Hrun; [|done].
    cbn [mbind option_bind]. intros [= <- <-].
    rewrite (IH _ _ Hrun). destruct a as [d response|]; cbn [Game2048.step] in Hstep.
    + by eapply make_move_size.
    + destruct (Game2048.restart_game self) as [s'|] eqn:Hr; [|done].
      cbn [mbind option_bind] in Hstep. injection Hstep as <- <-.
      by eapply restart_game_size.
Qed.

(** X19: the size of a session is never written: after any run of key
    presses and "New Game" clicks from a session that owns a square board
    of its size, the size is the same and the board is still a square of
    that size, through moves, spawns and restarts. *)
Theorem session_keeps_its_size (actions : list Game2048.Action)
    (self : Game2048.t) :
  session_ok self →
  ∃ self' shown,
    Game2048.run actions self = Some (self', shown)
    ∧ Game2048.size self' = Game2048.size self
    ∧ is_square (Z.to_nat (Game2048.size self)) (Game2048.board self').
Proof.
  intros Hok.
  destruct (run_total actions self Hok) as (self' & shown & Hrun & Hok' & _).
  exists self', shown. split; [done|].
  pose proof (run_size _ _ _ _ Hrun) as Hsize. split; [done|].
  unfold session_ok in Hok'. by rewrite Hsize in Hok'.
Qed.

Lemma session_keeps_its_size_witness :
  ∃ self' shown,
    Game2048.run [Game2048.KeyPress Up true; Game2048.NewGame]
      (Game2048.mk 3 [[0; 2; 0]; [2; 0; 0]; [0; 0; 4]]%Z 0 false
         (mkRandom (λ _, 0) (λ _, true) 0 0)) = Some (self', shown)
    ∧ Game2048.size self' = 3%Z
    ∧ is_square 3 (Game2048.board self').
Proof.
  apply (session_keeps_its_size
           [Game2048.KeyPress Up true; Game2048.NewGame]
           (Game2048.mk 3 [[0; 2; 0]; [2; 0; 0]; [0; 0; 4]]%Z 0 false
              (mkRandom (λ _, 0) (λ _, true) 0 0))).
  split; [reflexivity|]. repeat constructor.
Defined.

(** ** Where the tiles end up *)

Lemma compress_flush (row : Row) (j : nat) (v : Z) :
  (compress row).1 !! j = Some 0%Z → (compress row).1 !! (j + 1) = Some v →
  v = 0%Z.
Proof.
  destruct (compress_shape row) as (merged & k & -> & _ & Hnz & _).
  intros H0 Hv.
  destruct (decide (j < length merged)) as [Hlt|Hge].
  - rewrite lookup_app_l in H0 by done. rewrite Forall_forall in Hnz.
    destruct (Hnz 0%Z); [by eapply list_elem_of_lookup_2|done].
  - rewrite lookup_app_r in Hv by lia.
    by apply lookup_replicate in Hv as [-> _].
Qed.

Lemma move_left_flush (board : Board) (i j : nat) (v : Z) :
  cell (move_left board).1 i j = Some 0%Z →
  cell (move_left board).1 i (j + 1) = Some v → v = 0%Z.
Proof.
  rewrite move_left_map. cbn [fst]. rewrite !cell_row.
  intros (row & Hrow & H0) (row' & Hrow' & Hv). simplify_eq.
  rewrite list_lookup_fmap in Hrow.
  destruct (board !! i) as [r|]; [|done].
  cbn [fmap option_fmap option_map] in Hrow. simplify_eq.
  by eapply compress_flush.
Qed.

Lemma move_right_flush (board : Board) (i j : nat) (v : Z) :
  cell (move_right board).1 i (j + 1) = Some 0%Z →
  cell (move_right board).1 i j = Some v → v = 0%Z.
Proof.
  rewrite move_right_map. cbn [fst]. rewrite !cell_row.
  intros (row & Hrow & H0) (row' & Hrow' & Hv). simplify_eq.
  rewrite list_lookup_fmap in Hrow.
  destruct (board !! i) as [r|]; [|done].
  cbn [fmap option_fmap option_map] in Hrow. simplify_eq.
  pose proof (lookup_lt_Some _ _ _ H0) as Hlt. rewrite length_reverse in Hlt.
  rewrite reverse_lookup in H0, Hv by lia.
  apply (compress_flush (reverse r)
           (length (compress (reverse r)).1 - S (j + 1))); [done|].
  rewrite <- Hv. f_equal. lia.
Qed.

(** X20: after a move the tiles are packed against the side moved to, in
    each direction: no tile of the result has an empty cell next to it on
    that side (to its left after [move_left], to its right after
    [move_right], above it after [move_up], below it after [move_down], the
    last two on a square board). *)
Theorem moved_tiles_are_packed (n : nat) (board : Board) :
  is_square n board →
  (∀ i j v, cell (move_left board).1 i j = Some 0%Z →
            cell (move_left board).1 i (j + 1) = Some v → v = 0%Z)
  ∧ (∀ i j v, cell (move_right board).1 i (j + 1) = Some 0%Z →
              cell (move_right board).1 i j = Some v → v = 0%Z)
  ∧ (∀ i j v, cell (move_up board).1 i j = Some 0%Z →
              cell (move_up board).1 (i + 1) j = Some v → v = 0%Z)
  ∧ (∀ i j v, cell (move_down board).1 (i + 1) j = Some 0%Z →
              cell (move_down board).1 i j = Some v → v = 0%Z).
Proof.
  intros Hsq. split; [apply move_left_flush|]. split; [apply move_right_flush|].
  assert (Hcell : ∀ inner : Board, is_square n inner → ∀ i j v,
            cell (transpose inner) i j = Some v → cell inner j i = Some v).
  { intros inner Hin i j v Hc. destruct inner as [|r rest]; [done|].
    by rewrite (transpose_cell n n) in Hc. }
  split.
  - intros i j v. rewrite move_up_fst. intros H0 Hv.
    pose proof (move_left_rect n n _ (transpose_square n _ Hsq)) as Hin.
    apply (Hcell _ Hin) in H0, Hv. by eapply move_left_flush.
  - intros i j v. rewrite move_down_fst. intros H0 Hv.
    pose proof (move_right_rect n n _ (transpose_square n _ Hsq)) as Hin.
    apply (Hcell _ Hin) in H0, Hv. by eapply move_right_flush.
Qed.

Lemma moved_tiles_are_packed_witness :
  (∀ i j v, cell (move_left [[0; 2]; [4; 0]]%Z).1 i j = Some 0%Z →
            cell (move_left [[0; 2]; [4; 0]]%Z).1 i (j + 1) = Some v → v = 0%Z)
  ∧ (∀ i j v, cell (move_right [[0; 2]; [4; 0]]%Z).1 i (j + 1) = Some 0%Z →
              cell (move_right [[0; 2]; [4; 0]]%Z).1 i j = Some v → v = 0%Z)
  ∧ (∀ i j v, cell (move_up [[0; 2]; [4; 0]]%Z).1 i j = Some 0%Z →
              cell (move_up [[0; 2]; [4; 0]]%Z).1 (i + 1) j = Some v → v = 0%Z)
  ∧ (∀ i j v, cell (move_down [[0; 2]; [4; 0]]%Z).1 (i + 1) j = Some 0%Z →
              cell (move_down [[0; 2]; [4; 0]]%Z).1 i j = Some v → v = 0%Z).
Proof.
  apply (moved_tiles_are_packed 2 [[0; 2]; [4; 0]]%Z).
  split; [reflexivity|]. repeat constructor.
Defined.

(** ** Keys *)

Lemma move_functions_dict_lookup (key : string) :
  move_functions_dict !! key
  = if bool_decide (key = "up" ∨ key = "w")%string then Some move_up
    else if bool_decide (key = "down" ∨ key = "s")%string then Some move_down
    else if bool_decide (key = "left" ∨ key = "a")%string then Some move_left
    else if bool_decide (key = "right" ∨ key = "d")%string then Some move_right
    else None.
Proof.
  unfold move_functions_dict. cbn [list_to_map foldr uncurry fst snd].
  rewrite !lookup_insert, lookup_empty.
  destruct (decide (key = "up"%string)) as [->|Hup]; [reflexivity|].
  destruct (decide (key = "w"%string)) as [->|Hw]; [reflexivity|].
  destruct (decide (key = "down"%string)) as [->|Hdown]; [reflexivity|].
  destruct (decide (key = "s"%string)) as [->|Hs]; [reflexivity|].
  destruct (decide (key = "left"%string)) as [->|Hleft]; [reflexivity|].
  destruct (decide (key = "a"%string)) as [->|Ha]; [reflexivity|].
  destruct (decide (key = "right"%string)) as [->|Hright]; [reflexivity|].
  destruct (decide (key = "d"%string)) as [->|Hd]; [reflexivity|].
  rewrite !decide_False by done.
  by rewrite !bool_decide_eq_false_2 by (by intros [?|?]).
Qed.

(** X21: [handle_keypress] on the lowered key name: "up" and "w" are
    [make_move] with [move_up], "down" and "s" with [move_down], "left" and
    "a" with [move_left], "right" and "d" with [move_right]; any other key
    leaves the session as it is and shows nothing.  Whatever the key, a
    session that owns a square board raises nothing and stays one, of the
    same size. *)
Theorem handle_keypress_any_key (key : string) (response : bool)
    (self : Game2048.t) :
  ((key = "up" ∨ key = "w")%string →
   handle_keypress key response self
   = Game2048.make_move move_up response self)
  ∧ ((key = "down" ∨ key = "s")%string →
     handle_keypress key response self
     = Game2048.make_move move_down response self)
  ∧ ((key = "left" ∨ key = "a")%string →
     handle_keypress key response self
     = Game2048.make_move move_left response self)
  ∧ ((key = "right" ∨ key = "d")%string →
     handle_keypress key response self
     = Game2048.make_move move_right response self)
  ∧ (key ∉ ["up"; "w"; "down"; "s"; "left"; "a"; "right"; "d"]%string →
     handle_keypress key response self = Some (self, []))
  ∧ (session_ok self →
     ∃ self' shown,
       handle_keypress key response self = Some (self', shown)
       ∧ session_ok self'
       ∧ Game2048.size self' = Game2048.size self).
Proof.
  unfold handle_keypress. rewrite move_functions_dict_lookup.
  split; [|split; [|split; [|split; [|split]]]].
  - intros Hkey. by rewrite bool_decide_eq_true_2.
  - intros Hkey. rewrite bool_decide_eq_false_2 by (by intros [->| ->]; destruct Hkey).
    by rewrite bool_decide_eq_true_2.
  - intros Hkey.
    rewrite !bool_decide_eq_false_2 by (by intros [->| ->]; destruct Hkey).
    by rewrite bool_decide_eq_true_2.
  - intros Hkey.
    rewrite !bool_decide_eq_false_2 by (by intros [->| ->]; destruct Hkey).
    by rewrite bool_decide_eq_true_2.
  - intros Hkey. rewrite !not_elem_of_cons in Hkey.
    destruct Hkey as (? & ? & ? & ? & ? & ? & ? & ? & _).
    by rewrite !bool_decide_eq_false_2 by (by intros [?|?]).
  - intros Hok.
    repeat case_bool_decide;
      [apply (make_move_total Up)|apply (make_move_total Down)
      |apply (make_move_total Left)|apply (make_move_total Right)|];
      try done.
    by exists self, [].
Qed.

Lemma handle_keypress_any_key_witness :
  ∃ self' shown,
    handle_keypress "w" true
      (Game2048.mk 2 [[0; 2]; [4; 8]]%Z 0 false
         (mkRandom (λ _, 0) (λ _, true) 0 0)) = Some (self', shown)
    ∧ session_ok self'
    ∧ Game2048.size self' = 2%Z.
Proof.
  apply (handle_keypress_any_key "w" true
           (Game2048.mk 2 [[0; 2]; [4; 8]]%Z 0 false
              (mkRandom (λ _, 0) (λ _, true) 0 0))).
  split; [reflexivity|]. repeat constructor.
Defined.

(** ** Labels *)

Lemma config_spec (n m : nat) (cells : list (list Label)) (i j : nat) (l : Label) :
  is_grid n m cells → i < n → j < m →
  ∃ cells', config cells i j l = Some cells'
    ∧ is_grid n m cells'
    ∧ label_at cells' i j = Some l
    ∧ ∀ i' j', (i', j') ≠ (i, j) → label_at cells' i' j' = label_at cells i' j'.
Proof.
  intros [Hn Hm] Hi Hj.
  destruct (lookup_lt_is_Some_2 cells i) as [row Hrow]; [lia|].
  assert (Hlen : length row = m).
  { rewrite Forall_forall in Hm. apply Hm. by eapply list_elem_of_lookup_2. }
  destruct (lookup_lt_is_Some_2 row j) as [old Hold]; [lia|].
  exists (<[i := <[j := l]> row]> cells). unfold config.
  rewrite Hrow. cbn [mbind option_bind]. rewrite Hold. cbn [mbind option_bind].
  split; [done|]. split; [|split].
  - split; [by rewrite length_insert|].
    apply Forall_insert; [done|]. by rewrite length_insert.
  - unfold label_at. rewrite list_lookup_insert_eq by lia.
    cbn [mbind option_bind]. apply list_lookup_insert_eq. lia.
  - intros i' j' Hne. unfold label_at.
    destruct (decide (i' = i)) as [->|Hi'].
    + rewrite list_lookup_insert_eq, Hrow by lia. cbn [mbind option_bind].
      apply list_lookup_insert_ne. congruence.
    + by rewrite list_lookup_insert_ne.
Qed.

Lemma label_of_total (value : Z) : is_Some (label_of value).
Proof. unfold label_of. case_bool_decide; by eexists. Qed.

(** The inner loop of [update_ui], over the columns from [a] on. *)
Lemma update_row_spec (n : nat) (board : Board) (i : nat) (len : nat) :
  is_square n board → i < n →
  ∀ (a : nat) (cells : list (list Label)),
    a + len ≤ n → is_grid n n cells →
    ∃ cells',
      for_each (λ (j : nat) (cells : list (list Label)),
          value ← cell board i j; l ← label_of value; config cells i j l)
        (seq a len) cells = Some cells'
      ∧ is_grid n n cells'
      ∧ (∀ j v, a ≤ j < a + len → cell board i j = Some v →
                label_at cells' i j = label_of v)
      ∧ (∀ i' j', ¬ (i' = i ∧ a ≤ j' < a + len) →
                  label_at cells' i' j' = label_at cells i' j').
Proof.
  intros Hsq Hi. induction len as [|len IH]; intros a cells Ha Hgrid.
  - exists cells. split; [done|]. split; [done|]. split; [intros; lia|done].
  - cbn [seq for_each].
    destruct (is_rect_cell n n board i a Hsq) as [v Hv]; [lia..|].
    rewrite Hv. cbn [mbind option_bind].
    destruct (label_of_total v) as [l Hl]. rewrite Hl. cbn [mbind option_bind].
    destruct (config_spec n n cells i a l Hgrid) as (c1 & -> & Hgrid1 & Hnew & Hframe);
      [lia..|].
    cbn [mbind option_bind].
    destruct (IH (S a) c1) as (c2 & -> & Hgrid2 & Hdone & Hrest); [lia|done|].
    exists c2. split; [done|]. split; [done|]. split.
    + intros j w Hj Hw. destruct (decide (j = a)) as [->|Hja].
      * rewrite Hrest by lia. rewrite Hv in Hw. simplify_eq. by rewrite Hnew, Hl.
      * apply Hdone; [lia|done].
    + intros i' j' Hout. rewrite Hrest by lia. apply Hframe.
      intros [= -> ->]. lia.
Qed.

(** The outer loop of [update_ui], over the rows from [a] on. *)
Lemma update_rows_spec (n : nat) (board : Board) (len : nat) :
  is_square n board →
  ∀ (a : nat) (cells : list (list Label)),
    a + len ≤ n → is_grid n n cells →
    ∃ cells',
      for_each (λ i : nat,
          for_each (λ (j : nat) (cells : list (list Label)),
            value ← cell board i j; l ← label_of value; config cells i j l)
            (seq 0 n))
        (seq a len) cells = Some cells'
      ∧ is_grid n n cells'
      ∧ (∀ i j v, a ≤ i < a + len → cell board i j = Some v →
                  label_at cells' i j = label_of v)
      ∧ (∀ i' j', ¬ (a ≤ i' < a + len) →
                  label_at cells' i' j' = label_at cells i' j').
Proof.
  intros Hsq. induction len as [|len IH]; intros a cells Ha Hgrid.
  - exists cells. split; [done|]. split; [done|]. split; [intros; lia|done].
  - cbn [seq for_each].
    destruct (update_row_spec n board a n Hsq ltac:(lia) 0 cells)
      as (c1 & -> & Hgrid1 & Hrow & Hframe); [lia|done|].
    cbn [mbind option_bind].
    destruct (IH (S a) c1) as (c2 & -> & Hgrid2 & Hdone & Hrest); [lia|done|].
    exists c2. split; [done|]. split; [done|]. split.
    + intros i j w Hi Hw. destruct (decide (i = a)) as [->|Hia].
      * rewrite Hrest by lia. apply Hrow; [|done].
        destruct (cell_Some_lt _ _ _ _ _ _ Hsq Hw). lia.
      * apply Hdone; [lia|done].
    + intros i' j' Hout. rewrite Hrest by lia. apply Hframe. lia.
Qed.

(** X22: on a session that owns a square board of its size, with a grid of
    labels of that size (the one [setup_ui] builds, for one), [update_ui]
    raises nothing: it leaves a grid of the same size in which the label of
    every cell is the one of the value the cell holds, and the score label
    shows the score in decimal. *)
Theorem update_ui_shows_the_board (self : Game2048.t)
    (cells : list (list Label)) :
  session_ok self →
  is_grid (Z.to_nat (Game2048.size self)) (Z.to_nat (Game2048.size self)) cells →
  is_grid (Z.to_nat (Game2048.size self)) (Z.to_nat (Game2048.size self))
    (setup_cells (Game2048.size self))
  ∧ ∃ cells',
      update_ui self cells = Some (cells', pretty (Game2048.score self))
      ∧ is_grid (Z.to_nat (Game2048.size self))
          (Z.to_nat (Game2048.size self)) cells'
      ∧ ∀ i j v, cell (Game2048.board self) i j = Some v →
                 label_at cells' i j = label_of v.
Proof.
  intros Hok Hgrid. split.
  { unfold setup_cells. split; [apply length_replicate|].
    apply Forall_replicate, length_replicate. }
  unfold update_ui.
  destruct (update_rows_spec _ _ (Z.to_nat (Game2048.size self)) Hok 0 cells)
    as (cells' & -> & Hgrid' & Hdone & _); [lia|done|].
  cbn [mbind option_bind]. exists cells'. split; [done|]. split; [done|].
  intros i j v Hv. apply Hdone; [|done].
  destruct (cell_Some_lt _ _ _ _ _ _ Hok Hv). lia.
Qed.

Lemma update_ui_shows_the_board_witness :
  ∃ cells',
    update_ui (Game2048.mk 2 [[2; 0]; [4; 2048]]%Z 12 false
                 (mkRandom (λ _, 0) (λ _, true) 0 0)) (setup_cells 2)
    = Some (cells', "12"%string)
    ∧ is_grid 2 2 cells'
    ∧ ∀ i j v, cell [[2; 0]; [4; 2048]]%Z i j = Some v →
               label_at cells' i j = label_of v.
Proof.
  apply (update_ui_shows_the_board
           (Game2048.mk 2 [[2; 0]; [4; 2048]]%Z 12 false
              (mkRandom (λ _, 0) (λ _, true) 0 0)) (setup_cells 2)).
  - split; [reflexivity|]. repeat constructor.
  - split; [reflexivity|]. repeat constructor.
Defined.

Lemma pretty_N_go_ne_nil (x : N) (s : string) :
  s ≠ ""%string → pretty_N_go x s ≠ ""%string.
Proof.
  revert s. induction (N.lt_wf_0 x) as [x _ IH]; intros s Hs.
  destruct (decide (x = 0%N)) as [->|Hx]; [by rewrite pretty_N_go_0|].
  rewrite pretty_N_go_step by lia. apply IH; [apply N.div_lt; lia|done].
Qed.

Lemma pretty_Z_ne_nil (v : Z) : pretty v ≠ ""%string.
Proof.
  assert (Hpos : ∀ p, pretty (N.pos p) ≠ ""%string).
  { intros p. unfold pretty, pretty_N. rewrite decide_False by done.
    rewrite pretty_N_go_step by lia. by apply pretty_N_go_ne_nil. }
  unfold pretty, pretty_Z. destruct v as [|p|p]; [done|apply Hpos|done].
Qed.

Lemma TEXT_COLORS_lookup (v : Z) :
  v ≠ 0%Z →
  default "#F9F6F2"%string (TEXT_COLORS !! v)
  = if bool_decide (v = 2 ∨ v = 4)%Z then "#776E65"%string
    else "#F9F6F2"%string.
Proof.
  intros Hv. unfold TEXT_COLORS. cbn [list_to_map foldr uncurry fst snd].
  rewrite !lookup_insert, lookup_empty.
  rewrite (decide_False (P := 0%Z = v)) by done.
  destruct (decide (2 = v)%Z) as [<-|H2]; [done|].
  destruct (decide (4 = v)%Z) as [<-|H4]; [done|].
  rewrite bool_decide_eq_false_2 by (intros [?|?]; congruence).
  by repeat case_decide.
Qed.

Lemma COLORS_lookup_large (v : Z) :
  (2048 < v)%Z → default "#3C3A32"%string (COLORS !! v) = "#3C3A32"%string.
Proof.
  intros Hv. unfold COLORS. cbn [list_to_map foldr uncurry fst snd].
  rewrite !lookup_insert, lookup_empty.
  repeat match goal with
         | |- context [decide (?k = v)] =>
             destruct (decide (k = v)) as [Heq|_];
             [first [exfalso; lia | done]|]
         end.
  done.
Qed.

(** X23: every value has a label, so [update_ui] never fails on a colour.
    An empty cell is drawn blank, its text in the colour of its background.
    A tile shows its value in decimal, in dark text exactly for 2 and 4 and
    in light text otherwise, and on the one dark background for every value
    above 2048.  The text tells the value: two cells with the same text
    hold the same value. *)
Theorem label_of_facts (v : Z) :
  ∃ l, label_of v = Some l
    ∧ (v = 0%Z → text l = ""%string ∧ fg l = bg l)
    ∧ (v ≠ 0%Z →
       text l = pretty v
       ∧ fg l = (if bool_decide (v = 2 ∨ v = 4)%Z then "#776E65"
                 else "#F9F6F2")%string
       ∧ ((2048 < v)%Z → bg l = "#3C3A32"%string))
    ∧ (∀ v' l', label_of v' = Some l' → text l' = text l → v' = v).
Proof.
  assert (Htext : ∀ w lw, label_of w = Some lw →
            text lw = if bool_decide (w = 0%Z) then ""%string else pretty w).
  { intros w lw. unfold label_of. case_bool_decide.
    - destruct (COLORS !! 0%Z); [|done]. by intros [= <-].
    - by intros [= <-]. }
  destruct (label_of_total v) as [l Hl]. exists l. split; [done|].
  split; [|split].
  - intros ->. unfold label_of in Hl. rewrite bool_decide_eq_true_2 in Hl by done.
    destruct (COLORS !! 0%Z); [|done]. by injection Hl as <-.
  - intros Hv. unfold label_of in Hl. rewrite bool_decide_eq_false_2 in Hl by done.
    injection Hl as <-. cbn [text fg bg]. split; [done|].
    split; [by apply TEXT_COLORS_lookup|]. apply COLORS_lookup_large.
  - intros v' l' Hl' Heq.
    rewrite (Htext _ _ Hl), (Htext _ _ Hl') in Heq.
    repeat case_bool_decide; subst; try done.
    + by destruct (pretty_Z_ne_nil v).
    + by destruct (pretty_Z_ne_nil v').
    + by apply (inj pretty).
Qed.

Lemma label_of_facts_witness :
  ∃ l, label_of 4096 = Some l
    ∧ (4096 = 0 → text l = "" ∧ fg l = bg l)%Z%string
    ∧ ((4096 ≠ 0)%Z →
       text l = pretty 4096%Z
       ∧ fg l = (if bool_decide (4096 = 2 ∨ 4096 = 4)%Z then "#776E65"
                 else "#F9F6F2")%string
       ∧ ((2048 < 4096)%Z → bg l = "#3C3A32"%string))
    ∧ (∀ v' l', label_of v' = Some l' → text l' = text l → v' = 4096%Z).
Proof. apply (label_of_facts 4096). Defined.
